(** * KrishiRakshak firmware: sensor-to-alert decision pipeline

    A shallow embedding of the firmware sources
    ([main.c], [ml_inference.c], [wireless_comms.c], [utils.h]) and the
    properties of the pipeline that are proved about them.

    Numeric conventions of the embedding:
    - [float] values are rationals ([Q]); [round32] rounds a rational to
      the nearest binary32 number.  The quantization arithmetic is given
      twice: [quantize_f32], [dequantize_f32] and [process_output_f32]
      round after every float operation as the compiled code does, and
      [quantize], [dequantize] and [process_output] are the same
      expressions in exact arithmetic.  The percentage of an alert and
      the battery threshold are rounded as the code rounds them;
    - [uint32_t] values are [Z] with the wrap-around modulo 2^32 written
      out where the code subtracts or multiplies;
    - a C conversion from [float] to a narrow integer truncates toward
      zero; the C standard defines it only when the truncated value fits
      the target type ([fits_int8], [fits_uint8]); outside that range the
      model keeps the low byte of the truncated value, and no property
      below depends on that choice;
    - [printf] output and GPIO writes are left out; the calls that reach
      the network are recorded as a trace of events. *)

From Stdlib Require Import ZArith QArith Qround Qabs Qpower Bool List Lia Lqa.
From Stdlib Require Import Ascii String DecimalString Sorted.
Import ListNotations.

Open Scope Z_scope.

(** ** Numeric model *)

Definition Qlt_bool (x y : Q) : bool :=
  match Qcompare x y with Lt => true | _ => false end.

(** Truncation toward zero, the rounding of a C float-to-integer cast. *)
Definition Qtrunc (x : Q) : Z :=
  if Qle_bool 0 x then Qfloor x else Qceiling x.

Definition fits_int8 (z : Z) : Prop := -128 <= z <= 127.
Definition fits_uint8 (z : Z) : Prop := 0 <= z <= 255.

Definition to_int8 (z : Z) : Z := (z + 128) mod 256 - 128.
Definition to_uint8 (z : Z) : Z := z mod 256.
Definition to_uint32 (z : Z) : Z := z mod 2 ^ 32.

(** The nearest integer, ties to the even one: the rounding of binary
    floating point and of [printf]. *)
Definition round_half_even (x : Q) : Z :=
  let fl := Qfloor x in
  match Qcompare (x - inject_Z fl) (1 # 2) with
  | Lt => fl
  | Gt => fl + 1
  | Eq => if Z.even fl then fl else fl + 1
  end.

(** *** binary32

    A [float] is an IEEE 754 binary32 number: an integer multiple of
    [2 ^ e] with a 24-bit significand, [e] at least -149.  Every float
    operation of the C code gives the nearest such number to the exact
    result, ties to the even significand.  Overflow to infinity (above
    [2 ^ 128]) is outside the model; the values of the pipeline are far
    below it. *)

(** [floor (log2 x)] of a positive rational. *)
Definition ilog2 (x : Q) : Z :=
  let e0 := Z.log2 (Qnum x) - Z.log2 (Zpos (Qden x)) in
  if Qlt_bool x (2 ^ e0) then e0 - 1 else e0.

(** The exponent of the unit in the last place of the binade of [x];
    below [2 ^ -126] the numbers are subnormal and the unit stays
    [2 ^ -149]. *)
Definition exponent32 (x : Q) : Z := Z.max (ilog2 (Qabs x) - 23) (-149).

(** The binary32 number nearest to [x]. *)
Definition round32 (x : Q) : Q :=
  if Qeq_bool x 0 then 0
  else (inject_Z (round_half_even (x / 2 ^ exponent32 x))
        * 2 ^ exponent32 x)%Q.

(** ** ml_inference.h and ml_inference.c *)

Module ml_inference.

Inductive ml_class_t : Type :=
| CLASS_NORMAL
| CLASS_WATER_STRESS
| CLASS_PEST_RISK
| CLASS_UNKNOWN.

Record sensor_data_t : Type := mk_sensor_data {
  soil_moisture : Q;
  temperature : Q;
  humidity : Q;
  audio_energy : Q;
  timestamp : Z
}.

Record ml_result_t : Type := mk_ml_result {
  predicted_class : ml_class_t;
  confidence : Q;
  raw_scores : list Q;
  inference_time_us : Z
}.

(** The value an [int] takes when stored into an [ml_class_t]. *)
Definition class_of_index (i : Z) : ml_class_t :=
  match i with
  | 0 => CLASS_NORMAL
  | 1 => CLASS_WATER_STRESS
  | 2 => CLASS_PEST_RISK
  | _ => CLASS_UNKNOWN
  end.

Definition index_of_class (c : ml_class_t) : Z :=
  match c with
  | CLASS_NORMAL => 0
  | CLASS_WATER_STRESS => 1
  | CLASS_PEST_RISK => 2
  | CLASS_UNKNOWN => 255
  end.

(** The file-level statics of [ml_inference.c] after [ml_model_init]:
    whether the interpreter and its tensors are set, the quantization
    parameters read from the tensors, and the interpreter's [Invoke],
    which maps the int8 input tensor to the int8 output tensor or fails. *)
Record ml_model : Type := mk_ml_model {
  interpreter_ready : bool;
  input_scale : Q;
  input_zero_point : Z;
  output_scale : Q;
  output_zero_point : Z;
  Invoke : list Z -> option (list Z)
}.

(** [float features[4]] of [run_ml_inference]. *)
Definition features (sensor_data : sensor_data_t) : list Q :=
  [ soil_moisture sensor_data / 100;
    (temperature sensor_data - 10) / 40;
    humidity sensor_data / 100;
    audio_energy sensor_data ]%Q.

(** [(int8_t)(features[i] / input_scale + input_zero_point)]. *)
Definition quantize (scale : Q) (zero_point : Z) (f : Q) : Z :=
  to_int8 (Qtrunc (f / scale + inject_Z zero_point)%Q).

(** [(q - output_zero_point) * output_scale]. *)
Definition dequantize (scale : Q) (zero_point : Z) (q : Z) : Q :=
  (inject_Z (q - zero_point) * scale)%Q.

(** The same two expressions as the compiled code evaluates them.  In
    [features[i] / input_scale + input_zero_point] the quotient is
    rounded to binary32, the zero point is converted to [float], and the
    sum is rounded again before the cast truncates it.  In
    [(max_score - output_zero_point) * output_scale] the difference is an
    [int], converted to [float], and the product is rounded.  A scale of
    zero (a division by zero in C) is outside the model. *)
Definition quantize_f32 (scale : Q) (zero_point : Z) (f : Q) : Z :=
  to_int8 (Qtrunc (round32 (round32 (f / scale)
                            + round32 (inject_Z zero_point)))%Q).

Definition dequantize_f32 (scale : Q) (zero_point : Z) (q : Z) : Q :=
  round32 (round32 (inject_Z (q - zero_point)) * scale)%Q.

(** One iteration of the loop that finds the highest score; the state is
    [(max_score, max_index)]. *)
Definition argmax_step (output_data : list Z) (st : Z * Z) (i : Z) : Z * Z :=
  let '(max_score, max_index) := st in
  let v := nth (Z.to_nat i) output_data 0 in
  if max_score <? v then (v, i) else (max_score, max_index).

(** [max_score = output_data[0]; max_index = 0;
     for (i = 1; i < 3; i++) ...]. *)
Definition argmax3 (output_data : list Z) : Z * Z :=
  fold_left (argmax_step output_data) [1; 2] (nth 0 output_data 0, 0).

Definition get_current_time_us (system_tick : Z) : Z :=
  to_uint32 (system_tick * 1000).

(** The part of [run_ml_inference] after a successful [Invoke]: the
    argmax loop, the dequantized confidence and the raw scores. *)
Definition process_output (m : ml_model) (output_data : list Z)
    (inference_time : Z) : ml_result_t :=
  let '(max_score, max_index) := argmax3 output_data in
  let confidence :=
    dequantize (output_scale m) (output_zero_point m) max_score in
  {| predicted_class := class_of_index max_index;
     confidence := confidence;
     raw_scores :=
       map (fun i =>
              dequantize (output_scale m) (output_zero_point m)
                         (nth i output_data 0))
           [0%nat; 1%nat; 2%nat];
     inference_time_us := inference_time |}.

(** [process_output] with the scores dequantized in binary32. *)
Definition process_output_f32 (m : ml_model) (output_data : list Z)
    (inference_time : Z) : ml_result_t :=
  let '(max_score, max_index) := argmax3 output_data in
  let confidence :=
    dequantize_f32 (output_scale m) (output_zero_point m) max_score in
  {| predicted_class := class_of_index max_index;
     confidence := confidence;
     raw_scores :=
       map (fun i =>
              dequantize_f32 (output_scale m) (output_zero_point m)
                             (nth i output_data 0))
           [0%nat; 1%nat; 2%nat];
     inference_time_us := inference_time |}.

(** [run_ml_inference]: [None] is the [false] return, [Some r] is [true]
    with [*result = r]. *)
Definition run_ml_inference (m : ml_model) (system_tick : Z)
    (sensor_data : sensor_data_t) : option ml_result_t :=
  if negb (interpreter_ready m) then None
  else
    let quantized_input :=
      map (quantize (input_scale m) (input_zero_point m))
          (features sensor_data) in
    let start_time := get_current_time_us system_tick in
    let invoke_status := Invoke m quantized_input in
    let inference_time :=
      to_uint32 (get_current_time_us system_tick - start_time) in
    match invoke_status with
    | None => None
    | Some output_data =>
        Some (process_output m output_data inference_time)
    end.


(** The statics as the file initialises them: null pointers, scales and
    zero points 0. *)
Definition statics_at_start : ml_model :=
  {| interpreter_ready := false;
     input_scale := 0; input_zero_point := 0;
     output_scale := 0; output_zero_point := 0;
     Invoke := fun _ => None |}.


End ml_inference.

(** ** printf conversions used by [format_alert_json] *)

Definition dquote : string := String "034"%char EmptyString.
Definition newline : string := String "010"%char EmptyString.

(** [%lu] and [%d]. *)
Definition printf_d (z : Z) : string := NilZero.string_of_int (Z.to_int z).

Definition pad_zeros (width : nat) (s : string) : string :=
  (concat "" (repeat "0" (width - String.length s)) ++ s)%string.

(** [%.<prec>f]. *)
Definition printf_f (prec : nat) (x : Q) : string :=
  let p := 10 ^ Z.of_nat prec in
  let n := round_half_even (Qabs x * inject_Z p) in
  ((if Qlt_bool x 0 then "-" else "")
   ++ printf_d (n / p)
   ++ (match prec with
       | O => ""
       | _ => "." ++ pad_zeros prec (printf_d (n mod p))
       end))%string.

(** Substring test, used to say what a payload contains. *)
Fixpoint contains (needle hay : string) : bool :=
  if prefix needle hay then true
  else match hay with
       | EmptyString => false
       | String _ rest => contains needle rest
       end.

(** ** wireless_comms.h and wireless_comms.c *)

Module wireless_comms.

Import ml_inference.

Definition DEVICE_ID : string := "KR_001".
Definition MIN_ALERT_INTERVAL_MS : Z := 300000.
(** [3.3f]. *)
Definition BATTERY_LOW_THRESHOLD : Q := round32 (33 # 10).

Inductive alert_type_t : Type :=
| ALERT_WATER_STRESS
| ALERT_PEST_RISK
| ALERT_LOW_BATTERY
| ALERT_SYSTEM_ERROR.

Record alert_message_t : Type := mk_alert_message {
  device_id : string;
  timestamp : Z;
  alert_type : alert_type_t;
  confidence : Z;
  sensor_data : sensor_data_t
}.

(** The statics the dispatcher reads and writes: [system_tick] (the tick
    counter of [main.c]), [wireless_connected] and [last_alert_time]. *)
Record globals : Type := mk_globals {
  system_tick : Z;
  wireless_connected : bool;
  last_alert_time : Z
}.

(** [wireless_connected = false; last_alert_time = 0; system_tick = 0]. *)
Definition boot : globals :=
  {| system_tick := 0; wireless_connected := false; last_alert_time := 0 |}.

Definition set_system_tick (g : globals) (t : Z) : globals :=
  {| system_tick := t;
     wireless_connected := wireless_connected g;
     last_alert_time := last_alert_time g |}.

(** What one call of [send_wireless_alert] gets from outside the
    program: whether the Wi-Fi profile reaches the connected state,
    whether [snprintf] reports an encoding error, whether the HTTP POST
    is answered with status 200, and the bytes that the uninitialised
    local [alert] holds in its [sensor_data] member. *)
Record outside : Type := mk_outside {
  connect_ok : bool;
  snprintf_error : bool;
  http_ok : bool;
  stack_sensor_data : sensor_data_t
}.

(** The calls that leave the program, in order. *)
Inductive event : Type :=
| EvConnect (ok : bool)
| EvPost (json_data : string) (data_length : Z) (ok : bool).

Definition get_alert_type_string (a : alert_type_t) : string :=
  match a with
  | ALERT_WATER_STRESS => "water_stress"
  | ALERT_PEST_RISK => "pest_risk"
  | ALERT_LOW_BATTERY => "low_battery"
  | _ => "unknown"
  end.

Definition get_alert_recommendation (a : alert_type_t) : string :=
  match a with
  | ALERT_WATER_STRESS => "Initiate irrigation in affected area"
  | ALERT_PEST_RISK =>
      "Inspect crops for pest activity and consider treatment"
  | ALERT_LOW_BATTERY => "Check solar panel and charging system"
  | _ => "Monitor situation"
  end.

Definition key (k : string) : string := (dquote ++ k ++ dquote ++ ": ")%string.
Definition str (v : string) : string := (dquote ++ v ++ dquote)%string.

(** The text the format string of [format_alert_json] expands to. *)
Definition alert_json_text (alert : alert_message_t) : string :=
  ("{" ++ newline
   ++ "  " ++ key "device_id" ++ str (device_id alert) ++ "," ++ newline
   ++ "  " ++ key "timestamp" ++ printf_d (timestamp alert) ++ "," ++ newline
   ++ "  " ++ key "alert_type"
         ++ str (get_alert_type_string (alert_type alert)) ++ "," ++ newline
   ++ "  " ++ key "confidence" ++ printf_d (confidence alert) ++ "," ++ newline
   ++ "  " ++ key "sensor_data" ++ "{" ++ newline
   ++ "    " ++ key "moisture"
         ++ printf_f 1 (soil_moisture (sensor_data alert)) ++ "," ++ newline
   ++ "    " ++ key "temperature"
         ++ printf_f 1 (temperature (sensor_data alert)) ++ "," ++ newline
   ++ "    " ++ key "humidity"
         ++ printf_f 1 (humidity (sensor_data alert)) ++ "," ++ newline
   ++ "    " ++ key "audio"
         ++ printf_f 2 (audio_energy (sensor_data alert)) ++ newline
   ++ "  }," ++ newline
   ++ "  " ++ key "recommendation"
         ++ str (get_alert_recommendation (alert_type alert)) ++ newline
   ++ "}")%string.

(** [format_alert_json]: the value [snprintf] returns and the characters
    it leaves in [buffer] (at most [buffer_size - 1] of them). *)
Definition format_alert_json (o : outside) (alert : alert_message_t)
    (buffer_size : nat) : Z * string :=
  if snprintf_error o then (-1, EmptyString)
  else
    let text := alert_json_text alert in
    (Z.of_nat (String.length text), substring 0 (buffer_size - 1) text).

(** [wireless_connect]: sets [wireless_connected] when the profile
    reports the connected state within the ten polls. *)
Definition wireless_connect (o : outside) (g : globals) : bool * globals :=
  if connect_ok o
  then (true, {| system_tick := system_tick g;
                 wireless_connected := true;
                 last_alert_time := last_alert_time g |})
  else (false, g).

Definition send_http_alert (o : outside) (json_data : string)
    (data_length : Z) : bool := http_ok o.

(** [send_wireless_alert]: the returned [bool], the statics afterwards
    and the outside calls made.  [sensor_data = None] is the [NULL]
    pointer. *)
Definition send_wireless_alert (o : outside) (g : globals)
    (alert_type : alert_type_t) (sensor_data : option sensor_data_t)
    (confidence : Q) : bool * globals * list event :=
  if to_uint32 (system_tick g - last_alert_time g) <? MIN_ALERT_INTERVAL_MS
  then (false, g, [])
  else
    let '(connected, g1, tr) :=
      if wireless_connected g then (true, g, [])
      else let '(ok, g1) := wireless_connect o g in (ok, g1, [EvConnect ok]) in
    if negb connected then (false, g1, tr)
    else
      let alert :=
        {| device_id := DEVICE_ID;
           timestamp := system_tick g1;
           alert_type := alert_type;
           confidence := to_uint8 (Qtrunc (round32 (confidence * 100)));
           sensor_data :=
             match sensor_data with
             | Some d => d
             | None => stack_sensor_data o
             end |} in
      let '(json_length, json_buffer) := format_alert_json o alert 256 in
      if json_length <=? 0 then (false, g1, tr)
      else
        let success := send_http_alert o json_buffer json_length in
        (success,
         if success
         then {| system_tick := system_tick g1;
                 wireless_connected := wireless_connected g1;
                 last_alert_time := system_tick g1 |}
         else g1,
         tr ++ [EvPost json_buffer json_length success]).

(** An alert intent handed to the dispatcher: the value [system_tick]
    has at the call, what the outside answers, and the arguments. *)
Record intent : Type := mk_intent {
  at_tick : Z;
  from_outside : outside;
  kind : alert_type_t;
  snapshot : option sensor_data_t;
  score : Q
}.

Definition dispatch (g : globals) (i : intent) : bool * globals * list event :=
  send_wireless_alert (from_outside i) (set_system_tick g (at_tick i))
                      (kind i) (snapshot i) (score i).

(** The intents in turn, each run on the statics its predecessor left:
    what every call returned. *)
Fixpoint dispatch_all (g : globals) (intents : list intent)
    : list (bool * globals * list event) :=
  match intents with
  | [] => []
  | i :: rest =>
      let r := dispatch g i in
      r :: dispatch_all (snd (fst r)) rest
  end.

(** [t <= x1 <= x2 <= ...]. *)
Fixpoint nondecreasing (t : Z) (l : list Z) : Prop :=
  match l with
  | [] => True
  | x :: rest => t <= x /\ nondecreasing x rest
  end.

(** The local [alert] of [send_wireless_alert] once its members are
    assigned. *)
Definition build_alert (o : outside) (g : globals)
    (alert_type : alert_type_t) (sensor_data : option sensor_data_t)
    (confidence : Q) : alert_message_t :=
  {| device_id := DEVICE_ID;
     timestamp := system_tick g;
     alert_type := alert_type;
     confidence := to_uint8 (Qtrunc (round32 (confidence * 100)));
     sensor_data :=
       match sensor_data with
       | Some d => d
       | None => stack_sensor_data o
       end |}.

Definition set_connected (g : globals) : globals :=
  {| system_tick := system_tick g;
     wireless_connected := true;
     last_alert_time := last_alert_time g |}.

Definition set_last_alert_time (g : globals) : globals :=
  {| system_tick := system_tick g;
     wireless_connected := wireless_connected g;
     last_alert_time := system_tick g |}.

Definition is_connect (e : event) : bool :=
  match e with EvConnect _ => true | EvPost _ _ _ => false end.

Definition is_post (e : event) : bool :=
  match e with EvConnect _ => false | EvPost _ _ _ => true end.

(** The ticks of the intents whose call returned true, in order. *)
Fixpoint delivered (g : globals) (intents : list intent) : list Z :=
  match intents with
  | [] => []
  | i :: rest =>
      let r := dispatch g i in
      (if fst (fst r) then [at_tick i] else [])
        ++ delivered (snd (fst r)) rest
  end.

(** Every element is at least [MIN_ALERT_INTERVAL_MS] after the one
    before it, the first after [t]. *)
Fixpoint spaced (t : Z) (l : list Z) : Prop :=
  match l with
  | [] => True
  | x :: rest => t + MIN_ALERT_INTERVAL_MS <= x /\ spaced x rest
  end.

End wireless_comms.

(** ** main.c *)

Module main.

Import ml_inference wireless_comms.

Definition SENSOR_READ_INTERVAL_MS : Z := 30000.
Definition ML_CONFIDENCE_THRESHOLD : Z := 70.
Definition BATTERY_CHECK_INTERVAL : Z := 3600000.

(** The alert test of [process_sensor_data] on a filled [ml_result]:
    [Some a] when [send_wireless_alert (a, &current_sensor_data,
    ml_result.confidence)] is called, [None] when no call is made.  The
    [switch] has no [default], so [CLASS_UNKNOWN] falls through it. *)
Definition alert_decision (threshold : Q) (ml_result : ml_result_t)
    : option alert_type_t :=
  if Qlt_bool threshold (ml_inference.confidence ml_result) then
    match predicted_class ml_result with
    | CLASS_NORMAL => None
    | CLASS_WATER_STRESS => Some ALERT_WATER_STRESS
    | CLASS_PEST_RISK => Some ALERT_PEST_RISK
    | CLASS_UNKNOWN => None
    end
  else None.

(** [ML_CONFIDENCE_THRESHOLD / 100.0]. *)
Definition threshold : Q := inject_Z ML_CONFIDENCE_THRESHOLD / 100.

(** [process_sensor_data]: the statics afterwards and the outside calls
    made. *)
Definition process_sensor_data (m : ml_model) (o : outside) (g : globals)
    (current_sensor_data : sensor_data_t) : globals * list event :=
  match run_ml_inference m (system_tick g) current_sensor_data with
  | Some ml_result =>
      match alert_decision threshold ml_result with
      | Some a =>
          let '(_, g', tr) :=
            send_wireless_alert o g a (Some current_sensor_data)
                                (ml_inference.confidence ml_result) in
          (g', tr)
      | None => (g, [])
      end
  | None => (g, [])
  end.

(** [check_battery_level], given the value of [read_battery_voltage]. *)
Definition check_battery_level (o : outside) (g : globals)
    (battery_voltage : Q) : globals * list event :=
  if Qlt_bool battery_voltage BATTERY_LOW_THRESHOLD then
    let '(_, g', tr) := send_wireless_alert o g ALERT_LOW_BATTERY None 0 in
    (g', tr)
  else (g, []).

(** What one pass of the main loop reads from outside. *)
Record cycle_input : Type := mk_cycle_input {
  reading : sensor_data_t;
  battery : Q;
  alert_outside : outside;
  battery_outside : outside
}.

(** One pass of the [while (1)] body of [main]. *)
Definition main_loop_body (m : ml_model) (g : globals) (i : cycle_input)
    : globals * list event :=
  let current_sensor_data :=
    {| soil_moisture := soil_moisture (reading i);
       temperature := temperature (reading i);
       humidity := humidity (reading i);
       audio_energy := audio_energy (reading i);
       ml_inference.timestamp := system_tick g |} in
  let '(g1, tr1) :=
    process_sensor_data m (alert_outside i) g current_sensor_data in
  let '(g2, tr2) :=
    if system_tick g1 mod BATTERY_CHECK_INTERVAL =? 0
    then check_battery_level (battery_outside i) g1 (battery i)
    else (g1, []) in
  (set_system_tick g2 (to_uint32 (system_tick g2 + SENSOR_READ_INTERVAL_MS)),
   tr1 ++ tr2).

(** [read_all_sensors]: the readings of the pass, stamped with
    [system_tick]. *)
Definition read_all_sensors (g : globals) (i : cycle_input) : sensor_data_t :=
  {| soil_moisture := soil_moisture (reading i);
     temperature := temperature (reading i);
     humidity := humidity (reading i);
     audio_energy := audio_energy (reading i);
     ml_inference.timestamp := system_tick g |}.

(** The passes of the main loop over the inputs of each pass: the
    statics at the end and the outside calls of every pass. *)
Fixpoint main_loop (m : ml_model) (g : globals) (inputs : list cycle_input)
    : globals * list (list event) :=
  match inputs with
  | [] => (g, [])
  | i :: rest =>
      let '(g1, tr) := main_loop_body m g i in
      let '(g2, trs) := main_loop m g1 rest in
      (g2, tr :: trs)
  end.

End main.

(** ** utils.h: [CLAMP] and the circular buffer *)

Module utils.

(** [MIN(a, b)] and [MAX(a, b)]. *)
Definition MIN (a b : Z) : Z := if a <? b then a else b.
Definition MAX (a b : Z) : Z := if b <? a then a else b.

(** The bit macros on 32-bit unsigned operands: [BIT(n)] is [1UL << n],
    [unsigned long] being 32 bits wide on the target. *)
Definition BIT (n : Z) : Z := to_uint32 (Z.shiftl 1 n).
Definition SET_BIT (reg bit : Z) : Z := Z.lor reg bit.
Definition CLEAR_BIT (reg bit : Z) : Z :=
  Z.land reg (to_uint32 (Z.lnot bit)).
Definition TOGGLE_BIT (reg bit : Z) : Z := Z.lxor reg bit.
Definition CHECK_BIT (reg bit : Z) : Z := Z.land reg bit.

(** [CLAMP(x, min, max)]. *)
Definition CLAMP (x lo hi : Z) : Z :=
  if x <? lo then lo else if hi <? x then hi else x.

Record circular_buffer_t : Type := mk_circular_buffer {
  buffer : list Q;
  size : nat;
  head : nat;
  tail : nat;
  count : nat
}.

Fixpoint store (l : list Q) (i : nat) (x : Q) : list Q :=
  match l, i with
  | [], _ => []
  | _ :: t, O => x :: t
  | h :: t, S j => h :: store t j x
  end.

(** Modelled from the spec: [circular_buffer_init], declared in [utils.h]
    and defined outside the sources at hand; an empty window over the
    caller's storage. *)
Definition circular_buffer_init (storage : list Q) (size : nat)
    : circular_buffer_t :=
  {| buffer := storage; size := size; head := 0; tail := 0; count := 0 |}.

(** Modelled from the spec: [circular_buffer_full], declared in
    [utils.h]. *)
Definition circular_buffer_full (cb : circular_buffer_t) : bool :=
  Nat.eqb (count cb) (size cb).

(** Modelled from the spec: [circular_buffer_empty], declared in
    [utils.h]. *)
Definition circular_buffer_empty (cb : circular_buffer_t) : bool :=
  Nat.eqb (count cb) 0.

(** Modelled from the spec: [circular_buffer_push], declared in [utils.h];
    it fails as a no-op when [count == capacity] and otherwise writes at
    the logical tail. *)
Definition circular_buffer_push (cb : circular_buffer_t) (value : Q)
    : bool * circular_buffer_t :=
  if circular_buffer_full cb then (false, cb)
  else (true,
        {| buffer := store (buffer cb) (tail cb) value;
           size := size cb;
           head := head cb;
           tail := Nat.modulo (tail cb + 1) (size cb);
           count := count cb + 1 |}).

(** Modelled from the spec: [circular_buffer_pop], declared in [utils.h];
    it fails when empty and otherwise removes and returns the logical
    head.  [None] is the [false] return. *)
Definition circular_buffer_pop (cb : circular_buffer_t)
    : option Q * circular_buffer_t :=
  if circular_buffer_empty cb then (None, cb)
  else (Some (nth (head cb) (buffer cb) 0%Q),
        {| buffer := buffer cb;
           size := size cb;
           head := Nat.modulo (head cb + 1) (size cb);
           tail := tail cb;
           count := count cb - 1 |}).

(** The window in FIFO order, oldest value first. *)
Definition contents (cb : circular_buffer_t) : list Q :=
  map (fun k => nth (Nat.modulo (head cb + k) (size cb)) (buffer cb) 0%Q)
      (seq 0 (count cb)).

(** The window lies inside the storage and [tail] is where it ends. *)
Definition well_formed (cb : circular_buffer_t) : Prop :=
  List.length (buffer cb) = size cb
  /\ (count cb <= size cb)%nat
  /\ ((head cb < size cb)%nat \/ (size cb = 0%nat /\ head cb = 0%nat))
  /\ tail cb = Nat.modulo (head cb + count cb) (size cb).

Definition Qsum (l : list Q) : Q := fold_right Qplus 0%Q l.

Section Statistics.

(** [sqrtf] of the C library. *)
Variable sqrtf : Q -> Q.

(** Modelled from the spec: [circular_buffer_mean], declared in [utils.h];
    0 when empty, else the mean of the current contents. *)
Definition circular_buffer_mean (cb : circular_buffer_t) : Q :=
  if circular_buffer_empty cb then 0%Q
  else (Qsum (contents cb) / inject_Z (Z.of_nat (count cb)))%Q.

(** Modelled from the spec: [circular_buffer_stddev], declared in
    [utils.h]; 0 when empty, else the population standard deviation of
    the current contents. *)
Definition circular_buffer_stddev (cb : circular_buffer_t) : Q :=
  if circular_buffer_empty cb then 0%Q
  else
    let mu := circular_buffer_mean cb in
    sqrtf (Qsum (map (fun x => (x - mu) * (x - mu)) (contents cb))
           / inject_Z (Z.of_nat (count cb)))%Q.

End Statistics.

(** A caller's operation on the buffer and what it returns. *)
Inductive op : Type :=
| Push (value : Q)
| Pop.

Definition apply_op (cb : circular_buffer_t) (o : op)
    : bool * circular_buffer_t :=
  match o with
  | Push v => circular_buffer_push cb v
  | Pop => let '(r, cb') := circular_buffer_pop cb in
           (match r with Some _ => true | None => false end, cb')
  end.

(** The operations in turn: what each returned, and the final buffer. *)
Fixpoint run_ops (cb : circular_buffer_t) (ops : list op)
    : list bool * circular_buffer_t :=
  match ops with
  | [] => ([], cb)
  | o :: rest =>
      let '(r, cb1) := apply_op cb o in
      let '(rs, cb2) := run_ops cb1 rest in
      (r :: rs, cb2)
  end.

(** [n] pops in turn: the values returned and the final buffer. *)
Fixpoint pop_n (cb : circular_buffer_t) (n : nat)
    : list (option Q) * circular_buffer_t :=
  match n with
  | O => ([], cb)
  | S k =>
      let '(r, cb1) := circular_buffer_pop cb in
      let '(rs, cb2) := pop_n cb1 k in
      (r :: rs, cb2)
  end.

End utils.

(** ** The quantizer as the specification words it *)

Module spec.

(** Rounding to the nearest integer, ties away from zero. *)
Definition round_half_away (x : Q) : Z :=
  if Qle_bool 0 x then Qfloor (x + (1 # 2)) else Qceiling (x - (1 # 2)).

(** [clamp(round(f/scale) + zero_point, -128, 127)]. *)
Definition quantize (scale : Q) (zero_point : Z) (f : Q) : Z :=
  utils.CLAMP (round_half_away (f / scale) + zero_point) (-128) 127.

End spec.

(** ** Sample inputs *)

Module samples.

Import ml_inference wireless_comms.

(** The sample of the end-to-end scenario. *)
Definition end_to_end_sample : sensor_data_t :=
  {| soil_moisture := 20; temperature := 35; humidity := 80;
     audio_energy := 9 # 10; ml_inference.timestamp := 0 |}.

(** A classifier whose output tensor has scale 0.1 and zero point 0 and
    holds the scores 0.5, 0.5, 0.3. *)
Definition tie_model : ml_model :=
  {| interpreter_ready := true;
     input_scale := 1 # 4; input_zero_point := 0;
     output_scale := 1 # 10; output_zero_point := 0;
     Invoke := fun _ => Some [5; 5; 3] |}.

Definition tie_result : ml_result_t := process_output tie_model [5; 5; 3] 0.

Definition result_with (c : ml_class_t) (score : Q) : ml_result_t :=
  {| predicted_class := c; ml_inference.confidence := score;
     raw_scores := []; inference_time_us := 0 |}.

Definition zero_sensor_data : sensor_data_t :=
  {| soil_moisture := 0; temperature := 0; humidity := 0;
     audio_energy := 0; ml_inference.timestamp := 0 |}.

(** The network is up and every call to the outside succeeds. *)
Definition all_ok : outside :=
  {| connect_ok := true; snprintf_error := false; http_ok := true;
     stack_sensor_data := zero_sensor_data |}.

(** The network is up, and the local [alert] of [send_wireless_alert]
    holds [left_over] in its [sensor_data] member when the call starts. *)
Definition network_up (left_over : sensor_data_t) : outside :=
  {| connect_ok := true; snprintf_error := false; http_ok := true;
     stack_sensor_data := left_over |}.

(** A classifier that scores every input 0.05, 0.10, 0.85. *)
Definition pest_model : ml_model :=
  {| interpreter_ready := true;
     input_scale := 1 # 4; input_zero_point := 0;
     output_scale := 1 # 100; output_zero_point := 0;
     Invoke := fun _ => Some [5; 10; 85] |}.

(** A pass that reads the end-to-end sample and a battery at 3.2 V, with
    the network up. *)
Definition low_battery_pass : main.cycle_input :=
  {| main.reading := end_to_end_sample;
     main.battery := 32 # 10;
     main.alert_outside := all_ok;
     main.battery_outside := all_ok |}.

(** Binary32 inputs on which rounding shows: the scale 0.013f with the
    feature 2.093f, the scale 0.05f with the feature 0.9f, the score
    scale 0.1f, and the confidence 0.83f. *)
Definition scale_0_013f : Q := round32 (13 # 1000).
Definition feature_2_093f : Q := round32 (2093 # 1000).
Definition scale_0_05f : Q := round32 (1 # 20).
Definition feature_0_9f : Q := round32 (9 # 10).
Definition scale_0_1f : Q := round32 (1 # 10).
Definition confidence_0_83f : Q := round32 (83 # 100).

(** A classifier whose output tensor has scale 0.1f and zero point 0. *)
Definition tenth_model : ml_model :=
  {| interpreter_ready := true;
     input_scale := scale_0_05f; input_zero_point := 0;
     output_scale := scale_0_1f; output_zero_point := 0;
     Invoke := fun _ => Some [0; 7; 0] |}.

End samples.

(** * Properties *)

Import ml_inference wireless_comms main samples.

(** ** Truncation and narrow integers *)

Lemma Qle_bool_false (x y : Q) : Qle_bool x y = false -> (y < x)%Q.
Proof.
  intros H. apply Qnot_le_lt. intros Hle.
  apply Qle_bool_iff in Hle. congruence.
Qed.

Lemma Qlt_bool_true (x y : Q) : Qlt_bool x y = true <-> (x < y)%Q.
Proof.
  unfold Qlt_bool. rewrite Qlt_alt.
  destruct (x ?= y)%Q; split; congruence.
Qed.

Lemma Qlt_bool_false (x y : Q) : Qlt_bool x y = false <-> (y <= x)%Q.
Proof.
  split; intros H.
  - apply Qnot_lt_le. intros Hlt. apply Qlt_bool_true in Hlt. congruence.
  - destruct (Qlt_bool x y) eqn:E; [|reflexivity].
    apply Qlt_bool_true in E. exfalso. apply (Qlt_not_le _ _ E H).
Qed.

Lemma inject_Z_plus1 (z : Z) : (inject_Z (z + 1) == inject_Z z + 1)%Q.
Proof. rewrite inject_Z_plus. reflexivity. Qed.

Lemma inject_Z_minus1 (z : Z) : (inject_Z (z - 1) == inject_Z z - 1)%Q.
Proof.
  unfold Z.sub. rewrite inject_Z_plus, inject_Z_opp. reflexivity.
Qed.

(** Truncation moves toward zero by less than one. *)
Lemma Qtrunc_nonneg (y : Q) :
  (0 <= y)%Q -> (inject_Z (Qtrunc y) <= y /\ y < inject_Z (Qtrunc y) + 1)%Q.
Proof.
  intros Hy. unfold Qtrunc.
  apply Qle_bool_iff in Hy. rewrite Hy. split.
  - apply Qfloor_le.
  - rewrite <- inject_Z_plus1. apply Qlt_floor.
Qed.

Lemma Qtrunc_neg (y : Q) :
  (y < 0)%Q -> (inject_Z (Qtrunc y) - 1 < y /\ y <= inject_Z (Qtrunc y))%Q.
Proof.
  intros Hy. unfold Qtrunc.
  destruct (Qle_bool 0 y) eqn:E.
  - apply Qle_bool_iff in E. exfalso. apply (Qlt_not_le _ _ Hy E).
  - split.
    + rewrite <- inject_Z_minus1. apply Qceiling_lt.
    + apply Qle_ceiling.
Qed.

Lemma Qtrunc_within_one (y : Q) :
  (y - 1 < inject_Z (Qtrunc y) /\ inject_Z (Qtrunc y) < y + 1)%Q.
Proof.
  destruct (Qlt_le_dec y 0) as [Hneg | Hpos].
  - destruct (Qtrunc_neg y Hneg). split; lra.
  - destruct (Qtrunc_nonneg y Hpos). split; lra.
Qed.

Lemma inject_Z_le_inv (a b : Z) : (inject_Z a <= inject_Z b)%Q -> a <= b.
Proof. intros H. rewrite Zle_Qle. exact H. Qed.

Lemma inject_Z_lt_inv (a b : Z) : (inject_Z a < inject_Z b)%Q -> a < b.
Proof. intros H. rewrite Zlt_Qlt. exact H. Qed.

(** A value strictly between two integers truncates between them. *)
Lemma Qtrunc_range (y : Q) (lo hi : Z) :
  lo <= 0 <= hi ->
  (inject_Z lo - 1 < y)%Q -> (y < inject_Z hi + 1)%Q ->
  lo <= Qtrunc y <= hi.
Proof.
  intros [Hlo Hhi] Hl Hh.
  assert (Hlo' : (inject_Z lo <= 0)%Q)
    by (change 0%Q with (inject_Z 0); rewrite <- Zle_Qle; exact Hlo).
  assert (Hhi' : (0 <= inject_Z hi)%Q)
    by (change 0%Q with (inject_Z 0); rewrite <- Zle_Qle; exact Hhi).
  destruct (Qlt_le_dec y 0) as [Hneg | Hpos].
  - destruct (Qtrunc_neg y Hneg) as [H1 H2]. split.
    + assert (lo - 1 < Qtrunc y); [|lia].
      apply inject_Z_lt_inv. rewrite inject_Z_minus1. lra.
    + apply inject_Z_le_inv.
      assert (H0 : (inject_Z (Qtrunc y) < 1)%Q) by lra.
      change 1%Q with (inject_Z 1) in H0. apply inject_Z_lt_inv in H0.
      rewrite <- Zle_Qle. lia.
  - destruct (Qtrunc_nonneg y Hpos) as [H1 H2]. split.
    + assert (H0 : (-1 < inject_Z (Qtrunc y))%Q) by lra.
      change (-1)%Q with (inject_Z (-1)) in H0. apply inject_Z_lt_inv in H0.
      lia.
    + assert (Qtrunc y < hi + 1); [|lia].
      apply inject_Z_lt_inv. rewrite inject_Z_plus1. lra.
Qed.

Lemma to_int8_fits (z : Z) : fits_int8 z -> to_int8 z = z.
Proof.
  unfold fits_int8, to_int8. intros H.
  rewrite Z.mod_small by lia. lia.
Qed.

Lemma to_uint32_small (z : Z) : 0 <= z < 2 ^ 32 -> to_uint32 z = z.
Proof. intros H. unfold to_uint32. apply Z.mod_small. exact H. Qed.

(** [Qtrunc] is the quotient that rounds toward zero. *)
Lemma Qtrunc_is_quot (x : Q) : Qtrunc x = Z.quot (Qnum x) (Zpos (Qden x)).
Proof.
  destruct x as [n d]. unfold Qtrunc, Qle_bool, Qceiling, Qfloor, Qopp.
  cbn [Qnum Qden]. rewrite Z.mul_1_r. change (0 * Zpos d) with 0.
  destruct (Z.leb_spec 0 n) as [Hn | Hn].
  - symmetry. apply Z.quot_div_nonneg; lia.
  - rewrite <- (Z.opp_involutive n) at 2.
    rewrite Z.quot_opp_l by lia.
    f_equal. symmetry. apply Z.quot_div_nonneg; lia.
Qed.

Lemma Qtrunc_comp (x y : Q) : (x == y)%Q -> Qtrunc x = Qtrunc y.
Proof.
  intros H. unfold Qtrunc.
  assert (Hb : Qle_bool 0 x = Qle_bool 0 y).
  { destruct (Qle_bool 0 x) eqn:Ex; destruct (Qle_bool 0 y) eqn:Ey;
      try reflexivity.
    - apply Qle_bool_iff in Ex. apply Qle_bool_false in Ey.
      rewrite H in Ex. exfalso. apply (Qlt_not_le _ _ Ey Ex).
    - apply Qle_bool_false in Ex. apply Qle_bool_iff in Ey.
      rewrite H in Ex. exfalso. apply (Qlt_not_le _ _ Ex Ey). }
  rewrite Hb. destruct (Qle_bool 0 y).
  - apply Qfloor_comp. exact H.
  - apply Qceiling_comp. exact H.
Qed.

Lemma Qtrunc_inject_Z (z : Z) : Qtrunc (inject_Z z) = z.
Proof.
  unfold Qtrunc. destruct (Qle_bool 0 (inject_Z z)).
  - apply Qfloor_Z.
  - apply Qceiling_Z.
Qed.

Lemma Qtrunc_le (x y : Q) : (x <= y)%Q -> Qtrunc x <= Qtrunc y.
Proof.
  intros H. unfold Qtrunc.
  destruct (Qle_bool 0 x) eqn:Ex; destruct (Qle_bool 0 y) eqn:Ey.
  - apply Qfloor_resp_le. exact H.
  - apply Qle_bool_iff in Ex. apply Qle_bool_false in Ey.
    exfalso. apply (Qlt_not_le _ _ Ey). apply (Qle_trans _ x); assumption.
  - apply Qle_bool_false in Ex. apply Qle_bool_iff in Ey.
    apply (Z.le_trans _ 0).
    + rewrite <- (Qceiling_Z 0). apply Qceiling_resp_le.
      apply Qlt_le_weak. exact Ex.
    + rewrite <- (Qfloor_Z 0). apply Qfloor_resp_le. exact Ey.
  - apply Qceiling_resp_le. exact H.
Qed.

(** ** binary32 rounding *)

Lemma pow2_pos (e : Z) : (0 < 2 ^ e)%Q.
Proof. apply Qpower_0_lt. reflexivity. Qed.

Lemma pow2_plus (a b : Z) : (2 ^ (a + b) == 2 ^ a * 2 ^ b)%Q.
Proof. apply Qpower_plus. discriminate. Qed.

Lemma pow2_le (a b : Z) : a <= b -> (2 ^ a <= 2 ^ b)%Q.
Proof. intros H. apply Qpower_le_compat_l; [exact H | discriminate]. Qed.

Lemma pow2_inject (n : Z) : 0 <= n -> (inject_Z (2 ^ n) == 2 ^ n)%Q.
Proof. intros H. apply (Zpower_Qpower 2 n H). Qed.

Lemma round_half_even_cases (t : Q) :
  round_half_even t = Qfloor t /\ (t - inject_Z (Qfloor t) <= 1 # 2)%Q
  \/ round_half_even t = Qfloor t + 1
     /\ (1 # 2 <= t - inject_Z (Qfloor t))%Q.
Proof.
  unfold round_half_even. cbv zeta.
  destruct (Qcompare (t - inject_Z (Qfloor t)) (1 # 2)) eqn:E.
  - apply Qeq_alt in E.
    destruct (Z.even (Qfloor t)); [left | right]; split;
      try reflexivity; rewrite E; apply Qle_refl.
  - apply Qlt_alt in E. left. split; [reflexivity | apply Qlt_le_weak, E].
  - apply Qgt_alt in E. right. split; [reflexivity | apply Qlt_le_weak, E].
Qed.

Lemma round_half_even_above (t : Q) (k : Z) :
  (inject_Z k <= t)%Q -> k <= round_half_even t.
Proof.
  intros H.
  assert (Hk : k <= Qfloor t).
  { rewrite <- (Qfloor_Z k). apply Qfloor_resp_le, H. }
  destruct (round_half_even_cases t) as [[-> _] | [-> _]]; lia.
Qed.

Lemma round_half_even_below (t : Q) (k : Z) :
  (t <= inject_Z k)%Q -> round_half_even t <= k.
Proof.
  intros H.
  pose proof (Qfloor_le t) as Hf.
  destruct (round_half_even_cases t) as [[-> _] | [-> Hh]].
  - rewrite Zle_Qle. apply (Qle_trans _ t); assumption.
  - assert (Hlt : (inject_Z (Qfloor t) < inject_Z k)%Q).
    { revert Hh Hf H. generalize (inject_Z (Qfloor t)) (inject_Z k).
      intros; lra. }
    rewrite <- Zlt_Qlt in Hlt. lia.
Qed.

Lemma round_half_even_near (t : Q) :
  (Qabs (inject_Z (round_half_even t) - t) <= 1 # 2)%Q.
Proof.
  pose proof (Qfloor_le t) as Hf. pose proof (Qlt_floor t) as Hc.
  rewrite inject_Z_plus in Hc. change (inject_Z 1) with 1%Q in Hc.
  apply Qabs_Qle_condition.
  destruct (round_half_even_cases t) as [[-> Hh] | [-> Hh]];
    rewrite ?inject_Z_plus; change (inject_Z 1) with 1%Q; revert Hf Hc Hh;
    generalize (inject_Z (Qfloor t)); intros; split; lra.
Qed.

(** [ilog2] brackets a positive rational between two powers of two. *)
Lemma ilog2_spec (x : Q) :
  (0 < x)%Q -> (2 ^ ilog2 x <= x /\ x < 2 ^ (ilog2 x + 1))%Q.
Proof.
  intros Hx. destruct x as [n d].
  assert (Hn : 0 < n).
  { unfold Qlt in Hx. simpl in Hx. lia. }
  unfold ilog2. cbn [Qnum Qden].
  set (a := Z.log2 n). set (b := Z.log2 (Z.pos d)).
  destruct (Z.log2_spec n Hn) as [Ha1 Ha2]. fold a in Ha1, Ha2.
  destruct (Z.log2_spec (Z.pos d) eq_refl) as [Hb1 Hb2]. fold b in Hb1, Hb2.
  assert (Ha0 : 0 <= a) by apply Z.log2_nonneg.
  assert (Hb0 : 0 <= b) by apply Z.log2_nonneg.
  assert (Hlo : (2 ^ (a - b - 1) < n # d)%Q).
  { assert (E : (2 ^ (a - b - 1)
                 == inject_Z (2 ^ a) / inject_Z (2 ^ (b + 1)))%Q).
    { rewrite !pow2_inject by lia.
      replace (a - b - 1) with (a - (b + 1)) by lia.
      apply Qpower_minus. discriminate. }
    rewrite E, (Qmake_Qdiv n d).
    assert (P1 : (0 < inject_Z (2 ^ (b + 1)))%Q).
    { rewrite pow2_inject by lia. apply pow2_pos. }
    assert (P2 : (0 < inject_Z (Z.pos d))%Q) by reflexivity.
    apply Qlt_shift_div_l; [exact P2|].
    unfold Qdiv. rewrite <- Qmult_assoc, (Qmult_comm (/ _)), Qmult_assoc.
    apply Qlt_shift_div_r; [exact P1|].
    rewrite <- !inject_Z_mult, <- Zlt_Qlt. nia. }
  assert (Hhi : (n # d < 2 ^ (a - b + 1))%Q).
  { assert (E : (2 ^ (a - b + 1)
                 == inject_Z (2 ^ (a + 1)) / inject_Z (2 ^ b))%Q).
    { rewrite !pow2_inject by lia.
      replace (a - b + 1) with (a + 1 - b) by lia.
      apply Qpower_minus. discriminate. }
    rewrite E, (Qmake_Qdiv n d).
    assert (P1 : (0 < inject_Z (2 ^ b))%Q).
    { rewrite pow2_inject by lia. apply pow2_pos. }
    assert (P2 : (0 < inject_Z (Z.pos d))%Q) by reflexivity.
    apply Qlt_shift_div_r; [exact P2|].
    unfold Qdiv. rewrite <- Qmult_assoc, (Qmult_comm (/ _)), Qmult_assoc.
    apply Qlt_shift_div_l; [exact P1|].
    rewrite <- !inject_Z_mult, <- Zlt_Qlt. nia. }
  unfold Qlt_bool.
  destruct (Qcompare (n # d) (2 ^ (a - b))) eqn:E.
  - apply Qeq_alt in E. split; [rewrite E; apply Qle_refl | exact Hhi].
  - apply Qlt_alt in E.
    replace (a - b - 1 + 1) with (a - b) by lia.
    split; [apply Qlt_le_weak, Hlo | exact E].
  - apply Qgt_alt in E. split; [apply Qlt_le_weak, E | exact Hhi].
Qed.

Lemma Qabs_pos_of_neq (x : Q) : ~ x == 0 -> (0 < Qabs x)%Q.
Proof.
  intros Hx. destruct (Qlt_le_dec 0 (Qabs x)) as [H | H]; [exact H|].
  exfalso. apply Hx.
  pose proof (Qabs_nonneg x) as H0.
  assert (E : (Qabs x == 0)%Q) by (apply Qle_antisym; assumption).
  revert E. apply Qabs_case; intros; lra.
Qed.

(** The unit in the last place of a number below [2 ^ (j + 24)] is at
    most [2 ^ j]. *)
Lemma exponent32_le (x : Q) (j : Z) :
  ~ x == 0 -> -149 <= j -> (Qabs x < 2 ^ (j + 24))%Q -> exponent32 x <= j.
Proof.
  intros Hx Hj Hlt. unfold exponent32.
  destruct (ilog2_spec (Qabs x) (Qabs_pos_of_neq x Hx)) as [Hlo _].
  assert (H : ilog2 (Qabs x) < j + 24).
  { apply (Qpower_lt_compat_l_inv 2); [|reflexivity].
    apply (Qle_lt_trans _ (Qabs x)); assumption. }
  lia.
Qed.

Lemma round32_nonzero (x : Q) :
  ~ x == 0 ->
  round32 x
  = (inject_Z (round_half_even (x / 2 ^ exponent32 x))
     * 2 ^ exponent32 x)%Q.
Proof.
  intros Hx. unfold round32.
  destruct (Qeq_bool x 0) eqn:E; [|reflexivity].
  apply Qeq_bool_iff in E. contradiction.
Qed.

Lemma round32_zero (x : Q) : x == 0 -> round32 x = 0%Q.
Proof.
  intros Hx. unfold round32.
  apply Qeq_bool_iff in Hx. rewrite Hx. reflexivity.
Qed.

(** A multiple of [2 ^ j], [j] at least the unit of [x], written as a
    multiple of that unit. *)
Lemma multiple_of_unit (n j e : Z) :
  e <= j -> (inject_Z (n * 2 ^ (j - e)) * 2 ^ e == inject_Z n * 2 ^ j)%Q.
Proof.
  intros H. rewrite inject_Z_mult, pow2_inject by lia.
  rewrite <- Qmult_assoc, <- pow2_plus.
  replace (j - e + e) with j by lia. reflexivity.
Qed.

(** Rounding never crosses a number of the format: a multiple of [2 ^ j]
    below [x] stays below the rounded [x], and one above stays above. *)
Lemma round32_above (x : Q) (n j : Z) :
  -149 <= j -> (Qabs x < 2 ^ (j + 24))%Q ->
  (inject_Z n * 2 ^ j <= x)%Q -> (inject_Z n * 2 ^ j <= round32 x)%Q.
Proof.
  intros Hj Hlt H.
  destruct (Qeq_dec x 0) as [Hx | Hx].
  { rewrite (round32_zero x Hx), <- Hx. exact H. }
  pose proof (exponent32_le x j Hx Hj Hlt) as He.
  rewrite (round32_nonzero x Hx).
  set (e := exponent32 x) in *.
  pose proof (pow2_pos e) as Hp.
  rewrite <- (multiple_of_unit n j e He) in H |- *.
  apply Qmult_le_compat_r; [|apply Qlt_le_weak, Hp].
  rewrite <- Zle_Qle. apply round_half_even_above.
  apply Qle_shift_div_l; assumption.
Qed.

Lemma round32_below (x : Q) (n j : Z) :
  -149 <= j -> (Qabs x < 2 ^ (j + 24))%Q ->
  (x <= inject_Z n * 2 ^ j)%Q -> (round32 x <= inject_Z n * 2 ^ j)%Q.
Proof.
  intros Hj Hlt H.
  destruct (Qeq_dec x 0) as [Hx | Hx].
  { rewrite (round32_zero x Hx), <- Hx. exact H. }
  pose proof (exponent32_le x j Hx Hj Hlt) as He.
  rewrite (round32_nonzero x Hx).
  set (e := exponent32 x) in *.
  pose proof (pow2_pos e) as Hp.
  rewrite <- (multiple_of_unit n j e He) in H |- *.
  apply Qmult_le_compat_r; [|apply Qlt_le_weak, Hp].
  rewrite <- Zle_Qle. apply round_half_even_below.
  apply Qle_shift_div_r; assumption.
Qed.

(** Integers and half-integers in particular. *)
Lemma round32_above_int (x : Q) (n : Z) :
  (Qabs x < 16777216)%Q -> (inject_Z n <= x)%Q -> (inject_Z n <= round32 x)%Q.
Proof.
  intros Hlt H.
  rewrite <- (Qmult_1_r (inject_Z n)) in H |- *.
  apply (round32_above x n 0); [lia | exact Hlt | exact H].
Qed.

Lemma round32_below_int (x : Q) (n : Z) :
  (Qabs x < 16777216)%Q -> (x <= inject_Z n)%Q -> (round32 x <= inject_Z n)%Q.
Proof.
  intros Hlt H.
  rewrite <- (Qmult_1_r (inject_Z n)) in H |- *.
  apply (round32_below x n 0); [lia | exact Hlt | exact H].
Qed.

(** An integer below [2 ^ 24] is a binary32 number. *)
Lemma round32_int (n : Z) :
  Z.abs n < 16777216 -> (round32 (inject_Z n) == inject_Z n)%Q.
Proof.
  intros H.
  assert (Hlt : (Qabs (inject_Z n) < 16777216)%Q).
  { apply Qabs_Qlt_condition.
    change 16777216%Q with (inject_Z 16777216).
    rewrite <- inject_Z_opp, <- !Zlt_Qlt. lia. }
  apply Qle_antisym.
  - apply round32_below_int; [exact Hlt | apply Qle_refl].
  - apply round32_above_int; [exact Hlt | apply Qle_refl].
Qed.

(** The rounding error: half a unit in the last place. *)
Lemma round32_error (x : Q) :
  (Qabs (round32 x - x) <= Qabs x * 2 ^ (-24) + 2 ^ (-150))%Q.
Proof.
  destruct (Qeq_dec x 0) as [Hx | Hx].
  { rewrite (round32_zero x Hx), Hx. vm_compute. discriminate. }
  rewrite (round32_nonzero x Hx).
  pose proof (Qabs_pos_of_neq x Hx) as Hpos.
  destruct (ilog2_spec (Qabs x) Hpos) as [Hlo _].
  unfold exponent32. set (L := ilog2 (Qabs x)) in *.
  set (e := Z.max (L - 23) (-149)).
  pose proof (pow2_pos e) as Hp.
  assert (Hu : (2 ^ e * (1 # 2) <= Qabs x * 2 ^ (-24) + 2 ^ (-150))%Q).
  { destruct (Z.max_spec (L - 23) (-149)) as [[_ E] | [_ E]]; fold e in E;
      rewrite E.
    - assert (0 <= Qabs x * 2 ^ (-24))%Q.
      { apply Qmult_le_0_compat; [apply Qabs_nonneg | discriminate]. }
      change (2 ^ (-149) * (1 # 2))%Q with (2 ^ (-150))%Q.
      revert H. generalize (Qabs x * 2 ^ (-24))%Q (2 ^ (-150))%Q.
      intros; lra.
    - assert (E2 : (2 ^ (L - 23) * (1 # 2) == 2 ^ L * 2 ^ (-24))%Q).
      { replace (L - 23) with (L + -23) by lia. rewrite pow2_plus.
        rewrite <- Qmult_assoc. apply Qmult_comp; reflexivity. }
      rewrite E2.
      assert (2 ^ L * 2 ^ (-24) <= Qabs x * 2 ^ (-24))%Q.
      { apply Qmult_le_compat_r; [exact Hlo | discriminate]. }
      assert (0 < 2 ^ (-150))%Q by reflexivity.
      revert H H0.
      generalize (Qabs x * 2 ^ (-24))%Q (2 ^ (-150))%Q (2 ^ L * 2 ^ (-24))%Q.
      intros; lra. }
  apply (Qle_trans _ (2 ^ e * (1 # 2))); [|exact Hu].
  assert (E : (inject_Z (round_half_even (x / 2 ^ e)) * 2 ^ e - x
               == (inject_Z (round_half_even (x / 2 ^ e)) - x / 2 ^ e)
                  * 2 ^ e)%Q).
  { field. apply Qnot_eq_sym, Qlt_not_eq, Hp. }
  rewrite E, Qabs_Qmult, (Qabs_pos (2 ^ e)) by apply Qlt_le_weak, Hp.
  rewrite (Qmult_comm (2 ^ e)).
  apply Qmult_le_compat_r; [apply round_half_even_near|].
  apply Qlt_le_weak, Hp.
Qed.

(** Whatever the size of [x], rounding does not cross an integer below
    [2 ^ 24]. *)
Lemma round32_ge_pow24 (x : Q) :
  (16777216 <= x)%Q -> (16777216 <= round32 x)%Q.
Proof.
  intros H.
  assert (Hx : ~ x == 0) by (intros E; rewrite E in H; apply H; reflexivity).
  assert (Habs : Qabs x == x) by (apply Qabs_pos; lra).
  destruct (ilog2_spec (Qabs x) (Qabs_pos_of_neq x Hx)) as [Hlo Hhi].
  set (L := ilog2 (Qabs x)) in *.
  assert (HL : 24 < L + 1).
  { apply (Qpower_lt_compat_l_inv 2); [|reflexivity].
    apply (Qle_lt_trans _ (Qabs x)); [|exact Hhi].
    rewrite Habs. exact H. }
  apply (Qle_trans _ (2 ^ L)).
  { change 16777216%Q with (2 ^ 24)%Q. apply pow2_le. lia. }
  assert (E : (inject_Z 8388608 * 2 ^ (L - 23) == 2 ^ L)%Q).
  { change (inject_Z 8388608) with (2 ^ 23)%Q. rewrite <- pow2_plus.
    replace (23 + (L - 23)) with L by lia. reflexivity. }
  rewrite <- E. apply round32_above.
  - lia.
  - replace (L - 23 + 24) with (L + 1) by lia. exact Hhi.
  - rewrite E, <- Habs. exact Hlo.
Qed.

Lemma round32_le_neg_pow24 (x : Q) :
  (x <= -16777216)%Q -> (round32 x <= -16777216)%Q.
Proof.
  intros H.
  assert (Hx : ~ x == 0) by (intros E; rewrite E in H; apply H; reflexivity).
  assert (Habs : Qabs x == - x) by (apply Qabs_neg; lra).
  destruct (ilog2_spec (Qabs x) (Qabs_pos_of_neq x Hx)) as [Hlo Hhi].
  set (L := ilog2 (Qabs x)) in *.
  assert (HL : 24 < L + 1).
  { apply (Qpower_lt_compat_l_inv 2); [|reflexivity].
    apply (Qle_lt_trans _ (Qabs x)); [|exact Hhi].
    rewrite Habs. change (2 ^ 24)%Q with 16777216%Q. lra. }
  assert (P : (16777216 <= 2 ^ L)%Q).
  { change 16777216%Q with (2 ^ 24)%Q. apply pow2_le. lia. }
  assert (E : (inject_Z (-8388608) * 2 ^ (L - 23) == - 2 ^ L)%Q).
  { change (inject_Z (-8388608)) with (- 2 ^ 23)%Q.
    setoid_replace (- 2 ^ 23 * 2 ^ (L - 23))%Q
      with (- (2 ^ 23 * 2 ^ (L - 23)))%Q by ring.
    rewrite <- pow2_plus.
    replace (23 + (L - 23)) with L by lia. reflexivity. }
  apply (Qle_trans _ (- 2 ^ L)); [|revert P; generalize (2 ^ L)%Q; intros; lra].
  rewrite <- E. apply round32_below.
  - lia.
  - replace (L - 23 + 24) with (L + 1) by lia. exact Hhi.
  - rewrite E. rewrite Habs in Hlo.
    revert Hlo. generalize (2 ^ L)%Q. intros; lra.
Qed.

Lemma inject_Z_abs_lt (n m : Z) :
  Z.abs n < m -> (- inject_Z m < inject_Z n /\ inject_Z n < inject_Z m)%Q.
Proof.
  intros H. rewrite <- inject_Z_opp, <- !Zlt_Qlt. lia.
Qed.

Lemma round32_ge_int (x : Q) (n : Z) :
  Z.abs n < 16777216 -> (inject_Z n <= x)%Q -> (inject_Z n <= round32 x)%Q.
Proof.
  intros Hn H.
  destruct (inject_Z_abs_lt n 16777216 Hn) as [Hn1 Hn2].
  change (inject_Z 16777216) with 16777216%Q in Hn1, Hn2.
  destruct (Qlt_le_dec (Qabs x) 16777216) as [Hlt | Hge].
  { apply round32_above_int; assumption. }
  destruct (Qlt_le_dec x 16777216) as [Hx | Hx].
  - exfalso. revert Hge. apply Qlt_not_le.
    apply Qabs_Qlt_condition.
    revert Hn1 Hn2 H Hx. generalize (inject_Z n). intros; split; lra.
  - apply Qlt_le_weak.
    apply (Qlt_le_trans _ 16777216); [exact Hn2|].
    apply round32_ge_pow24, Hx.
Qed.

Lemma round32_le_int (x : Q) (n : Z) :
  Z.abs n < 16777216 -> (x <= inject_Z n)%Q -> (round32 x <= inject_Z n)%Q.
Proof.
  intros Hn H.
  destruct (inject_Z_abs_lt n 16777216 Hn) as [Hn1 Hn2].
  change (inject_Z 16777216) with 16777216%Q in Hn1, Hn2.
  destruct (Qlt_le_dec (Qabs x) 16777216) as [Hlt | Hge].
  { apply round32_below_int; assumption. }
  destruct (Qlt_le_dec (-16777216) x) as [Hx | Hx].
  - exfalso. revert Hge. apply Qlt_not_le.
    apply Qabs_Qlt_condition.
    revert Hn1 Hn2 H Hx. generalize (inject_Z n). intros; split; lra.
  - apply Qlt_le_weak.
    apply (Qle_lt_trans _ (-16777216)); [|exact Hn1].
    apply round32_le_neg_pow24, Hx.
Qed.

(** A value within [lo, hi] rounds within [lo, hi]. *)
Lemma round32_between_int (x : Q) (lo hi : Z) :
  Z.abs lo < 16777216 -> Z.abs hi < 16777216 ->
  (inject_Z lo <= x <= inject_Z hi)%Q ->
  (inject_Z lo <= round32 x <= inject_Z hi)%Q.
Proof.
  intros Hlo Hhi [H1 H2]. split.
  - apply round32_ge_int; assumption.
  - apply round32_le_int; assumption.
Qed.

(** A value between two integers rounds and truncates between them. *)
Lemma Qtrunc_round32_between (x : Q) (lo hi : Z) :
  Z.abs lo < 16777216 -> Z.abs hi < 16777216 ->
  (inject_Z lo <= x <= inject_Z hi)%Q ->
  lo <= Qtrunc (round32 x) <= hi.
Proof.
  intros Hlo Hhi H.
  destruct (round32_between_int x lo hi Hlo Hhi H) as [H1 H2].
  rewrite <- (Qtrunc_inject_Z lo), <- (Qtrunc_inject_Z hi).
  split; apply Qtrunc_le; assumption.
Qed.

(** A confidence between 0 and 1 becomes a percentage between 0 and 100
    that the cast to [uint8_t] leaves as it is. *)
Lemma confidence_percent_fits (c : Q) :
  (0 <= c <= 1)%Q ->
  0 <= Qtrunc (round32 (c * 100)) <= 100
  /\ fits_uint8 (Qtrunc (round32 (c * 100)))
  /\ to_uint8 (Qtrunc (round32 (c * 100))) = Qtrunc (round32 (c * 100)).
Proof.
  intros [H0 H1].
  assert (Hr : 0 <= Qtrunc (round32 (c * 100)) <= 100).
  { apply Qtrunc_round32_between; [reflexivity | reflexivity |].
    change (inject_Z 0) with 0%Q. change (inject_Z 100) with 100%Q.
    split; lra. }
  split; [exact Hr|]. split.
  - unfold fits_uint8. lia.
  - unfold to_uint8. apply Z.mod_small. lia.
Qed.

(** The percentage is one of the two integers around [100 c]. *)
Lemma confidence_percent_near (c : Q) :
  (0 <= c <= 1)%Q ->
  Qfloor (c * 100) <= Qtrunc (round32 (c * 100)) <= Qceiling (c * 100)
  /\ (Qabs (inject_Z (Qtrunc (round32 (c * 100))) - c * 100) < 1)%Q.
Proof.
  intros [H0 H1].
  set (t := (c * 100)%Q).
  assert (Ht : (0 <= t <= 100)%Q) by (unfold t; split; lra).
  pose proof (Qfloor_le t) as F1. pose proof (Qlt_floor t) as F2.
  pose proof (Qle_ceiling t) as C1. pose proof (Qceiling_lt t) as C2.
  rewrite inject_Z_plus1 in F2. rewrite inject_Z_minus1 in C2.
  assert (Hf : 0 <= Qfloor t <= 100).
  { rewrite <- (Qfloor_Z 0), <- (Qfloor_Z 100).
    split; apply Qfloor_resp_le; apply Ht. }
  assert (Hc : 0 <= Qceiling t <= 100).
  { rewrite <- (Qceiling_Z 0), <- (Qceiling_Z 100).
    split; apply Qceiling_resp_le; apply Ht. }
  assert (Hb : Qfloor t <= Qtrunc (round32 t) <= Qceiling t).
  { apply Qtrunc_round32_between; [lia | lia | split; assumption]. }
  split; [exact Hb|].
  destruct Hb as [B1 B2]. rewrite Zle_Qle in B1, B2.
  apply Qabs_Qlt_condition.
  revert F1 F2 C1 C2 B1 B2.
  generalize (inject_Z (Qfloor t)) (inject_Z (Qceiling t))
             (inject_Z (Qtrunc (round32 t))).
  intros; split; lra.
Qed.

(** ** Feature extraction *)


(** ** Quantization *)

Lemma round_half_away_near (x : Q) :
  (x - (1 # 2) <= inject_Z (spec.round_half_away x)
   /\ inject_Z (spec.round_half_away x) <= x + (1 # 2))%Q.
Proof.
  unfold spec.round_half_away. destruct (Qle_bool 0 x) eqn:E.
  - pose proof (Qfloor_le (x + (1 # 2))) as H1.
    pose proof (Qlt_floor (x + (1 # 2))) as H2.
    rewrite inject_Z_plus1 in H2. split; lra.
  - pose proof (Qle_ceiling (x - (1 # 2))) as H1.
    pose proof (Qceiling_lt (x - (1 # 2))) as H2.
    rewrite inject_Z_minus1 in H2. split; lra.
Qed.

(** ** Quantization in binary32 *)

Lemma shifted_sum (n zp j : Z) :
  j <= 0 ->
  (inject_Z (n + zp * 2 ^ (- j)) * 2 ^ j
   == inject_Z n * 2 ^ j + inject_Z zp)%Q.
Proof.
  intros Hj. rewrite inject_Z_plus, inject_Z_mult, pow2_inject by lia.
  assert (E : (2 ^ (- j) * 2 ^ j == 1)%Q).
  { rewrite <- pow2_plus. replace (- j + j) with 0 by lia. reflexivity. }
  setoid_replace ((inject_Z n + inject_Z zp * 2 ^ (- j)) * 2 ^ j)%Q
    with (inject_Z n * 2 ^ j + inject_Z zp * (2 ^ (- j) * 2 ^ j))%Q by ring.
  rewrite E. ring.
Qed.

Lemma fits_int8_inject (z : Z) :
  fits_int8 z -> (-128 <= inject_Z z <= 127)%Q.
Proof.
  intros [H1 H2]. rewrite Zle_Qle in H1, H2. split; assumption.
Qed.

(** The float sum [x / scale + zero_point] of the quantization step stays
    between the multiples of [2 ^ j] (integers, or halves) that enclose
    the exact sum. *)
Lemma quantized_sum_between (x : Q) (zp lo hi j : Z) :
  -1 <= j <= 0 -> fits_int8 zp -> (Qabs x < 512)%Q ->
  (inject_Z lo * 2 ^ j <= x)%Q -> (x <= inject_Z hi * 2 ^ j)%Q ->
  let v := round32 (round32 x + round32 (inject_Z zp))%Q in
  (inject_Z lo * 2 ^ j + inject_Z zp <= v
   /\ v <= inject_Z hi * 2 ^ j + inject_Z zp)%Q.
Proof.
  intros Hj Hzp Hx Hlo Hhi v.
  assert (P : (1024 <= 2 ^ (j + 24))%Q).
  { apply (Qle_trans _ (2 ^ 23)); [|apply pow2_le; lia].
    apply Qle_bool_iff. reflexivity. }
  assert (Hx1 : (Qabs x < 2 ^ (j + 24))%Q).
  { apply (Qlt_le_trans _ 512); [exact Hx|].
    apply (Qle_trans _ 1024); [|exact P]. apply Qle_bool_iff. reflexivity. }
  assert (Ez : (round32 (inject_Z zp) == inject_Z zp)%Q).
  { apply round32_int. unfold fits_int8 in Hzp. lia. }
  pose proof (fits_int8_inject zp Hzp) as Hz.
  assert (Hxa : (inject_Z lo * 2 ^ j <= round32 x)%Q)
    by (apply round32_above; [lia | exact Hx1 | exact Hlo]).
  assert (Hxb : (round32 x <= inject_Z hi * 2 ^ j)%Q)
    by (apply round32_below; [lia | exact Hx1 | exact Hhi]).
  assert (Hx512 : (inject_Z (-512) <= round32 x <= inject_Z 512)%Q).
  { apply round32_between_int; [reflexivity | reflexivity |].
    apply Qabs_Qlt_condition in Hx.
    change (inject_Z (-512)) with (-512)%Q.
    change (inject_Z 512) with 512%Q. split; lra. }
  change (inject_Z (-512)) with (-512)%Q in Hx512.
  change (inject_Z 512) with 512%Q in Hx512.
  set (s := (round32 x + round32 (inject_Z zp))%Q) in *.
  assert (Hs : (Qabs s < 2 ^ (j + 24))%Q).
  { apply (Qlt_le_trans _ 1024); [|exact P].
    apply Qabs_Qlt_condition. unfold s. rewrite Ez.
    revert Hz Hx512. generalize (inject_Z zp) (round32 x).
    intros; split; lra. }
  split.
  - rewrite <- (shifted_sum lo zp j) by lia.
    apply round32_above; [lia | exact Hs |].
    rewrite shifted_sum by lia. unfold s. rewrite Ez.
    apply Qplus_le_compat; [exact Hxa | apply Qle_refl].
  - rewrite <- (shifted_sum hi zp j) by lia.
    apply round32_below; [lia | exact Hs |].
    rewrite shifted_sum by lia. unfold s. rewrite Ez.
    apply Qplus_le_compat; [exact Hxb | apply Qle_refl].
Qed.

(** The cast of the quantization step, when it is defined: one of the two
    integers around the exact [f / scale + zero_point]. *)
Lemma quantize_f32_near (scale : Q) (zp : Z) (f : Q) :
  fits_int8 zp -> (Qabs (f / scale) < 512)%Q ->
  let v := round32 (round32 (f / scale) + round32 (inject_Z zp))%Q in
  fits_int8 (Qtrunc v) ->
  quantize_f32 scale zp f = Qtrunc v
  /\ Qfloor (f / scale) + zp <= Qtrunc v <= Qceiling (f / scale) + zp
  /\ (Qabs (inject_Z (Qtrunc v) - (f / scale + inject_Z zp)) < 1)%Q.
Proof.
  intros Hzp Hx v Hfit.
  split; [apply to_int8_fits; exact Hfit|].
  set (x := (f / scale)%Q) in *.
  pose proof (Qfloor_le x) as F1. pose proof (Qlt_floor x) as F2.
  pose proof (Qle_ceiling x) as C1. pose proof (Qceiling_lt x) as C2.
  rewrite inject_Z_plus1 in F2. rewrite inject_Z_minus1 in C2.
  destruct (quantized_sum_between x zp (Qfloor x) (Qceiling x) 0)
    as [V1 V2]; try assumption; try lia.
  { change (2 ^ 0)%Q with 1%Q. rewrite Qmult_1_r. exact F1. }
  { change (2 ^ 0)%Q with 1%Q. rewrite Qmult_1_r. exact C1. }
  fold v in V1, V2.
  change (2 ^ 0)%Q with 1%Q in V1, V2. rewrite Qmult_1_r in V1, V2.
  rewrite <- inject_Z_plus in V1, V2.
  assert (Hb : Qfloor x + zp <= Qtrunc v <= Qceiling x + zp).
  { rewrite <- (Qtrunc_inject_Z (Qfloor x + zp)).
    rewrite <- (Qtrunc_inject_Z (Qceiling x + zp)).
    split; apply Qtrunc_le; assumption. }
  split; [exact Hb|].
  destruct Hb as [B1 B2]. rewrite Zle_Qle in B1, B2.
  rewrite inject_Z_plus in B1, B2.
  apply Qabs_Qlt_condition.
  revert F1 F2 C1 C2 B1 B2.
  generalize (inject_Z (Qfloor x)) (inject_Z (Qceiling x))
             (inject_Z (Qtrunc v)) (inject_Z zp).
  intros; split; lra.
Qed.

(** A cast that is defined bounds the quotient. *)
Lemma cast_defined_bounds (x : Q) (zp : Z) :
  fits_int8 zp ->
  fits_int8 (Qtrunc (round32 (round32 x + round32 (inject_Z zp)))) ->
  (Qabs x < 512)%Q.
Proof.
  intros Hzp [L1 L2].
  assert (Ez : (round32 (inject_Z zp) == inject_Z zp)%Q).
  { apply round32_int. unfold fits_int8 in Hzp. lia. }
  pose proof (fits_int8_inject zp Hzp) as Hz.
  set (s := (round32 x + round32 (inject_Z zp))%Q) in *.
  destruct (Qtrunc_within_one (round32 s)) as [T1 T2].
  rewrite Zle_Qle in L1, L2.
  change (inject_Z (-128)) with (-128)%Q in L1.
  change (inject_Z 127) with 127%Q in L2.
  assert (S1 : (-129 < s)%Q).
  { destruct (Qlt_le_dec (-129) s) as [H | H]; [exact H|].
    exfalso.
    assert (H' : (round32 s <= inject_Z (-129))%Q)
      by (apply round32_le_int; [reflexivity | exact H]).
    change (inject_Z (-129)) with (-129)%Q in H'.
    revert T1 T2 L1 L2 H'.
    generalize (inject_Z (Qtrunc (round32 s))) (round32 s). intros; lra. }
  assert (S2 : (s < 128)%Q).
  { destruct (Qlt_le_dec s 128) as [H | H]; [exact H|].
    exfalso.
    assert (H' : (inject_Z 128 <= round32 s)%Q)
      by (apply round32_ge_int; [reflexivity | exact H]).
    change (inject_Z 128) with 128%Q in H'.
    revert T1 T2 L1 L2 H'.
    generalize (inject_Z (Qtrunc (round32 s))) (round32 s). intros; lra. }
  unfold s in S1, S2. rewrite Ez in S1, S2.
  apply Qabs_Qlt_condition. split.
  - destruct (Qlt_le_dec (-512) x) as [H | H]; [exact H|].
    exfalso.
    assert (H' : (round32 x <= inject_Z (-512))%Q)
      by (apply round32_le_int; [reflexivity | exact H]).
    change (inject_Z (-512)) with (-512)%Q in H'.
    revert S1 S2 Hz H'. generalize (inject_Z zp) (round32 x). intros; lra.
  - destruct (Qlt_le_dec x 512) as [H | H]; [exact H|].
    exfalso.
    assert (H' : (inject_Z 512 <= round32 x)%Q)
      by (apply round32_ge_int; [reflexivity | exact H]).
    change (inject_Z 512) with 512%Q in H'.
    revert S1 S2 Hz H'. generalize (inject_Z zp) (round32 x). intros; lra.
Qed.

(** C3, the claim as stated fails: with scale 0.25 and zero point 0 the
    feature 0.6875 is 2.75 steps, all of them binary32 numbers; the cast
    of the code yields 2 where rounding to nearest yields 3. *)
Lemma quantize_is_not_rounding :
  quantize_f32 (1 # 4) 0 (11 # 16) = 2
  /\ spec.quantize (1 # 4) 0 (11 # 16) = 3
  /\ quantize_f32 (1 # 4) 0 (11 # 16) <> spec.quantize (1 # 4) 0 (11 # 16).
Proof. repeat split. vm_compute. discriminate. Qed.

(** C3 as amended: for a positive scale and an int8 zero point, whenever
    the cast is defined (the binary32 sum f/scale + zero_point truncates
    into [-128, 127]), the quantization step yields the truncation toward
    zero of that binary32 sum.  The result is one of the two integers
    around the exact f/scale + zero_point, less than one step away from
    it; nothing is rounded to nearest and nothing is clamped. *)
Theorem quantize_f32_truncates (scale : Q) (zero_point : Z) (f : Q) :
  (0 < scale)%Q ->
  fits_int8 zero_point ->
  let v := round32 (round32 (f / scale) + round32 (inject_Z zero_point))%Q in
  fits_int8 (Qtrunc v) ->
  let q := quantize_f32 scale zero_point f in
  q = Qtrunc v
  /\ fits_int8 q
  /\ Qfloor (f / scale) + zero_point <= q
     <= Qceiling (f / scale) + zero_point
  /\ (Qabs (inject_Z q - (f / scale + inject_Z zero_point)) < 1)%Q.
Proof.
  intros Hs Hzp v Hfit q.
  pose proof (cast_defined_bounds (f / scale) zero_point Hzp Hfit) as Hx.
  destruct (quantize_f32_near scale zero_point f Hzp Hx Hfit)
    as (E & Hb & Hn).
  unfold q. rewrite E. fold v.
  split; [reflexivity|]. split; [exact Hfit|]. split; assumption.
Qed.

(** 0.9f / 0.05f: the exact quotient is below 18 and the binary32
    quotient is 18. *)
Lemma quantize_f32_truncates_witness :
  quantize_f32 scale_0_05f 0 feature_0_9f = 18
  /\ Qceiling (feature_0_9f / scale_0_05f) + 0 = 18
  /\ Qtrunc (feature_0_9f / scale_0_05f + inject_Z 0) = 17.
Proof.
  assert (H0 : (0 < scale_0_05f)%Q) by reflexivity.
  assert (Hz : fits_int8 0) by (unfold fits_int8; lia).
  assert (Hf : fits_int8
                 (Qtrunc (round32 (round32 (feature_0_9f / scale_0_05f)
                                   + round32 (inject_Z 0))%Q)))
    by (vm_compute; split; discriminate).
  destruct (quantize_f32_truncates scale_0_05f 0 feature_0_9f H0 Hz Hf)
    as (E & _).
  split; [rewrite E; vm_compute; reflexivity|].
  split; vm_compute; reflexivity.
Defined.

(** The representable range of the claim keeps the cast of the code in
    range as well. *)
Lemma representable_bounds (scale : Q) (zero_point : Z) (f : Q) :
  fits_int8 zero_point ->
  fits_int8 (spec.round_half_away (f / scale) + zero_point) ->
  (Qabs (f / scale) < 512)%Q
  /\ fits_int8 (Qtrunc (round32 (round32 (f / scale)
                                 + round32 (inject_Z zero_point))%Q)).
Proof.
  intros Hzp Hrep.
  set (x := (f / scale)%Q) in *.
  set (n := spec.round_half_away x) in *.
  destruct (round_half_away_near x) as [H1 H2]. fold n in H1, H2.
  pose proof (fits_int8_inject zero_point Hzp) as Hz.
  pose proof (fits_int8_inject _ Hrep) as Hr.
  rewrite inject_Z_plus in Hr.
  assert (Hx : (Qabs x < 512)%Q).
  { apply Qabs_Qlt_condition. revert H1 H2 Hz Hr.
    generalize (inject_Z n) (inject_Z zero_point). intros; split; lra. }
  split; [exact Hx|].
  assert (Eh : forall m : Z,
             (inject_Z m * 2 ^ (-1) == inject_Z m * (1 # 2))%Q)
    by (intros m; reflexivity).
  destruct (quantized_sum_between x zero_point (2 * n - 1) (2 * n + 1) (-1))
    as [V1 V2]; try assumption; try lia.
  { rewrite Eh. unfold Z.sub. rewrite inject_Z_plus, inject_Z_mult.
    change (inject_Z 2) with 2%Q. change (inject_Z (- (1))) with (-1)%Q.
    revert H2. generalize (inject_Z n). intros; lra. }
  { rewrite Eh. rewrite inject_Z_plus, inject_Z_mult.
    change (inject_Z 2) with 2%Q. change (inject_Z 1) with 1%Q.
    revert H1. generalize (inject_Z n). intros; lra. }
  rewrite Eh in V1, V2.
  unfold Z.sub in V1. rewrite inject_Z_plus, inject_Z_mult in V1, V2.
  change (inject_Z 2) with 2%Q in V1, V2.
  change (inject_Z (- (1))) with (-1)%Q in V1.
  change (inject_Z 1) with 1%Q in V2.
  apply Qtrunc_range; [lia | |].
  - change (inject_Z (-128)) with (-128)%Q.
    revert V1 Hr. generalize (inject_Z n) (inject_Z zero_point).
    intros q0 q1. generalize (round32 (round32 x + round32 q1)).
    intros; lra.
  - change (inject_Z 127) with 127%Q.
    revert V2 Hr. generalize (inject_Z n) (inject_Z zero_point).
    intros q0 q1. generalize (round32 (round32 x + round32 q1)).
    intros; lra.
Qed.

(** C4, the claim as stated fails: with scale 0.013f, zero point -128 and
    f = 2.093f, inside the representable range of the claim, the code
    quantizes f to 32 and dequantizes 32 to a binary32 number that is
    more than one scale step away from f. *)
Lemma round_trip_can_exceed_one_step :
  (0 < scale_0_013f)%Q
  /\ fits_int8 (spec.round_half_away (feature_2_093f / scale_0_013f) + -128)
  /\ quantize_f32 scale_0_013f (-128) feature_2_093f = 32
  /\ (scale_0_013f
      < Qabs (dequantize_f32 scale_0_013f (-128)
                (quantize_f32 scale_0_013f (-128) feature_2_093f)
              - feature_2_093f))%Q.
Proof.
  split; [reflexivity|]. split; [vm_compute; split; discriminate|].
  split; vm_compute; reflexivity.
Qed.

(** C4 as amended: for a positive scale, an int8 zero point and every f
    whose rounded step count plus zero point lies in [-128, 127], the
    cast is defined, and quantizing and then dequantizing with the same
    parameters returns a value less than
    scale * (1 + 2^-16) + 2^-150 away from f: one quantization step and
    the rounding error of the binary32 product. *)
Theorem quantize_dequantize_f32_bound (scale : Q) (zero_point : Z) (f : Q) :
  (0 < scale)%Q ->
  fits_int8 zero_point ->
  fits_int8 (spec.round_half_away (f / scale) + zero_point) ->
  fits_int8 (Qtrunc (round32 (round32 (f / scale)
                              + round32 (inject_Z zero_point))%Q))
  /\ (Qabs (dequantize_f32 scale zero_point
              (quantize_f32 scale zero_point f) - f)
      < scale * (1 + 2 ^ (-16)) + 2 ^ (-150))%Q.
Proof.
  intros Hs Hzp Hrep.
  destruct (representable_bounds scale zero_point f Hzp Hrep) as [Hx Hfit].
  split; [exact Hfit|].
  destruct (quantize_f32_near scale zero_point f Hzp Hx Hfit)
    as (E & _ & Hn).
  rewrite E.
  set (q := Qtrunc (round32 (round32 (f / scale)
                             + round32 (inject_Z zero_point))%Q)) in *.
  unfold dequantize_f32.
  assert (Hk : Z.abs (q - zero_point) <= 255).
  { unfold fits_int8 in Hfit, Hzp. lia. }
  assert (Ek : (round32 (inject_Z (q - zero_point))
                == inject_Z (q - zero_point))%Q)
    by (apply round32_int; lia).
  set (t := (round32 (inject_Z (q - zero_point)) * scale)%Q).
  pose proof (round32_error t) as Herr.
  assert (Et : (t == inject_Z (q - zero_point) * scale)%Q)
    by (unfold t; rewrite Ek; reflexivity).
  assert (Hta : (Qabs t <= 255 * scale)%Q).
  { rewrite Et, Qabs_Qmult, (Qabs_pos scale) by lra.
    apply Qmult_le_compat_r; [|lra].
    apply Qabs_Qle_condition.
    change 255%Q with (inject_Z 255).
    rewrite <- inject_Z_opp, <- !Zle_Qle. lia. }
  assert (Htf : (Qabs (t - f) < scale)%Q).
  { assert (Ed : (t - f
                  == (inject_Z q - (f / scale + inject_Z zero_point))
                     * scale)%Q).
    { rewrite Et. unfold Z.sub. rewrite inject_Z_plus, inject_Z_opp.
      field. lra. }
    rewrite Ed, Qabs_Qmult, (Qabs_pos scale) by lra.
    apply (Qlt_le_trans _ (1 * scale)).
    - apply Qmult_lt_compat_r; [exact Hs | exact Hn].
    - rewrite Qmult_1_l. apply Qle_refl. }
  assert (Htri : (Qabs (round32 t - f)
                  <= Qabs (round32 t - t) + Qabs (t - f))%Q).
  { setoid_replace (round32 t - f)%Q
      with ((round32 t - t) + (t - f))%Q by ring.
    apply Qabs_triangle. }
  assert (H24 : (Qabs t * 2 ^ (-24) <= 255 * scale * 2 ^ (-24))%Q).
  { apply Qmult_le_compat_r; [exact Hta | discriminate]. }
  change (2 ^ (-24))%Q with (1 # 16777216)%Q in Herr, H24.
  change (2 ^ (-16))%Q with (1 # 65536)%Q.
  revert Herr Htf Htri H24.
  generalize (Qabs (round32 t - f)) (Qabs (round32 t - t)) (Qabs (t - f))
             (Qabs t) (2 ^ (-150))%Q.
  intros; lra.
Qed.

Lemma quantize_dequantize_f32_bound_witness :
  (Qabs (dequantize_f32 scale_0_013f (-128)
           (quantize_f32 scale_0_013f (-128) feature_2_093f)
         - feature_2_093f)
   < scale_0_013f * (1 + 2 ^ (-16)) + 2 ^ (-150))%Q.
Proof.
  apply (quantize_dequantize_f32_bound scale_0_013f (-128) feature_2_093f).
  - reflexivity.
  - unfold fits_int8. lia.
  - vm_compute. split; discriminate.
Defined.

(** ** Argmax and the alert decision *)

Lemma dequantize_le (scale : Q) (zero_point a b : Z) :
  (0 < scale)%Q -> a <= b ->
  (dequantize scale zero_point a <= dequantize scale zero_point b)%Q.
Proof.
  intros Hs Hab. unfold dequantize.
  apply Qmult_le_compat_r; [|lra].
  rewrite <- Zle_Qle. lia.
Qed.

Lemma dequantize_lt (scale : Q) (zero_point a b : Z) :
  (0 < scale)%Q -> a < b ->
  (dequantize scale zero_point a < dequantize scale zero_point b)%Q.
Proof.
  intros Hs Hab. unfold dequantize.
  apply Qmult_lt_compat_r; [exact Hs|].
  rewrite <- Zlt_Qlt. lia.
Qed.

(** The loop returns the first position that holds the largest score. *)
Lemma argmax3_spec (o0 o1 o2 : Z) :
  let '(max_score, max_index) := argmax3 [o0; o1; o2] in
  0 <= max_index < 3
  /\ max_score = nth (Z.to_nat max_index) [o0; o1; o2] 0
  /\ o0 <= max_score /\ o1 <= max_score /\ o2 <= max_score
  /\ (1 <= max_index -> o0 < max_score)
  /\ (2 <= max_index -> o1 < max_score).
Proof.
  unfold argmax3, argmax_step. simpl.
  destruct (o0 <? o1) eqn:E1.
  - apply Z.ltb_lt in E1. destruct (o1 <? o2) eqn:E2.
    + apply Z.ltb_lt in E2. simpl. lia.
    + apply Z.ltb_ge in E2. simpl. lia.
  - apply Z.ltb_ge in E1. destruct (o0 <? o2) eqn:E2.
    + apply Z.ltb_lt in E2. simpl. lia.
    + apply Z.ltb_ge in E2. simpl. lia.
Qed.

(** The class stored in the result is one of the three the model scores. *)
Lemma process_output_class (m : ml_model) (o0 o1 o2 it : Z) :
  predicted_class (process_output m [o0; o1; o2] it)
  = class_of_index (snd (argmax3 [o0; o1; o2]))
  /\ index_of_class (predicted_class (process_output m [o0; o1; o2] it))
     = snd (argmax3 [o0; o1; o2]).
Proof.
  unfold process_output.
  pose proof (argmax3_spec o0 o1 o2) as H.
  destruct (argmax3 [o0; o1; o2]) as [ms mi]. simpl.
  split; [reflexivity|].
  destruct H as [Hr _].
  assert (Hc : mi = 0 \/ mi = 1 \/ mi = 2) by lia.
  destruct Hc as [-> | [-> | ->]]; reflexivity.
Qed.

(** The confidence is the raw score of the predicted class. *)
Lemma confidence_is_winning_score (m : ml_model) (o0 o1 o2 it : Z) :
  let r := process_output m [o0; o1; o2] it in
  ml_inference.confidence r
  = nth (Z.to_nat (index_of_class (predicted_class r))) (raw_scores r) 0%Q.
Proof.
  intros r.
  destruct (process_output_class m o0 o1 o2 it) as [_ Hidx].
  fold r in Hidx. rewrite Hidx.
  pose proof (argmax3_spec o0 o1 o2) as H.
  unfold r, process_output.
  destruct (argmax3 [o0; o1; o2]) as [ms mi]. simpl.
  destruct H as (Hr & Hms & _).
  assert (Hc : mi = 0 \/ mi = 1 \/ mi = 2) by lia.
  destruct Hc as [-> | [-> | ->]]; simpl in Hms; subst ms; reflexivity.
Qed.

(** C2: for a positive output scale and every three scores, the predicted
    class is one of the classes 0, 1, 2, its raw score is at least every
    raw score, and every class of lower index has a strictly smaller raw
    score (ties go to the lowest index); the confidence is the raw score
    of the predicted class.  In particular the scores 0.5, 0.5, 0.3 give
    class 0. *)
Theorem predicted_class_is_first_argmax :
  (forall (m : ml_model) (o0 o1 o2 it : Z),
      (0 < output_scale m)%Q ->
      let r := process_output m [o0; o1; o2] it in
      let p := Z.to_nat (index_of_class (predicted_class r)) in
      (p < 3)%nat
      /\ (forall i, (i < 3)%nat ->
                    (nth i (raw_scores r) 0 <= nth p (raw_scores r) 0)%Q)
      /\ (forall i, (i < p)%nat ->
                    (nth i (raw_scores r) 0 < nth p (raw_scores r) 0)%Q)
      /\ ml_inference.confidence r = nth p (raw_scores r) 0%Q)
  /\ (Forall2 Qeq (raw_scores tie_result) [5 # 10; 5 # 10; 3 # 10]%Q
      /\ predicted_class tie_result = CLASS_NORMAL
      /\ run_ml_inference tie_model 0 end_to_end_sample = Some tie_result).
Proof.
  split.
  - intros m o0 o1 o2 it Hs r p.
    destruct (process_output_class m o0 o1 o2 it) as [_ Hidx].
    fold r in Hidx. unfold p. rewrite Hidx.
    pose proof (argmax3_spec o0 o1 o2) as H.
    assert (Hconf : ml_inference.confidence r
                    = dequantize (output_scale m) (output_zero_point m)
                                 (fst (argmax3 [o0; o1; o2]))).
    { unfold r, process_output.
      destruct (argmax3 [o0; o1; o2]); reflexivity. }
    assert (Hraw : raw_scores r
                   = map (dequantize (output_scale m) (output_zero_point m))
                         [o0; o1; o2]).
    { unfold r, process_output.
      destruct (argmax3 [o0; o1; o2]); reflexivity. }
    rewrite Hconf, Hraw.
    destruct (argmax3 [o0; o1; o2]) as [ms mi]. simpl fst. simpl snd.
    destruct H as (Hr & Hms & H0 & H1 & H2 & Hl1 & Hl2).
    assert (Hc : mi = 0 \/ mi = 1 \/ mi = 2) by lia.
    destruct Hc as [-> | [-> | ->]]; simpl in Hms; subst ms; simpl.
    + split; [lia|]. split; [|split; [|reflexivity]].
      * intros i Hi.
        destruct i as [|[|[|i]]]; try lia;
          apply dequantize_le; assumption || lia.
      * intros i Hi. lia.
    + split; [lia|]. split; [|split; [|reflexivity]].
      * intros i Hi.
        destruct i as [|[|[|i]]]; try lia;
          apply dequantize_le; assumption || lia.
      * intros i Hi. destruct i as [|i]; [|lia].
        apply dequantize_lt; [assumption|lia].
    + split; [lia|]. split; [|split; [|reflexivity]].
      * intros i Hi.
        destruct i as [|[|[|i]]]; try lia;
          apply dequantize_le; assumption || lia.
      * intros i Hi. destruct i as [|[|i]]; try lia;
          apply dequantize_lt; assumption || lia.
  - repeat split. repeat constructor; reflexivity.
Qed.

Lemma predicted_class_is_first_argmax_witness :
  (0 < output_scale tie_model)%Q
  /\ (nth 1 (raw_scores tie_result) 0 <= nth 0 (raw_scores tie_result) 0)%Q.
Proof.
  assert (Hs : (0 < output_scale tie_model)%Q) by reflexivity.
  split; [exact Hs|].
  destruct predicted_class_is_first_argmax as [H _].
  destruct (H tie_model 5 5 3 0 Hs) as (_ & Hmax & _).
  apply (Hmax 1%nat). lia.
Defined.

Lemma alert_decision_some (t : Q) (r : ml_result_t) (a : alert_type_t) :
  alert_decision t r = Some a ->
  (t < ml_inference.confidence r)%Q
  /\ ((predicted_class r = CLASS_WATER_STRESS /\ a = ALERT_WATER_STRESS)
      \/ (predicted_class r = CLASS_PEST_RISK /\ a = ALERT_PEST_RISK)).
Proof.
  unfold alert_decision. intros H.
  destruct (Qlt_bool t (ml_inference.confidence r)) eqn:E; [|discriminate].
  apply Qlt_bool_true in E. split; [exact E|].
  destruct (predicted_class r); try discriminate;
    injection H as <-; auto.
Qed.

(** C1: for every threshold t and every inference result, the decision
    step calls the dispatcher only when the confidence (the raw score of
    the predicted class) is strictly greater than t and the class is not
    NORMAL; a score equal to or below t and the class NORMAL each give no
    alert, and with no alert [process_sensor_data] makes no outside call
    and leaves the dispatcher's statics as they were.  A confident
    WATER_STRESS or PEST_RISK result gives the alert of that kind.
    Against the firmware's threshold 0.70 the score 0.70 gives no alert
    and the score 0.70001 gives one. *)
Theorem alert_requires_confident_abnormal_class :
  (forall (t : Q) (r : ml_result_t),
      (forall a, alert_decision t r = Some a ->
                 (t < ml_inference.confidence r)%Q
                 /\ predicted_class r <> CLASS_NORMAL)
      /\ ((ml_inference.confidence r <= t)%Q -> alert_decision t r = None)
      /\ (predicted_class r = CLASS_NORMAL -> alert_decision t r = None)
      /\ ((t < ml_inference.confidence r)%Q ->
          (predicted_class r = CLASS_WATER_STRESS ->
           alert_decision t r = Some ALERT_WATER_STRESS)
          /\ (predicted_class r = CLASS_PEST_RISK ->
              alert_decision t r = Some ALERT_PEST_RISK)))
  /\ (forall (t : Q) (m : ml_model) (o0 o1 o2 it : Z) a,
         let r := process_output m [o0; o1; o2] it in
         alert_decision t r = Some a ->
         (t < nth (Z.to_nat (index_of_class (predicted_class r)))
                  (raw_scores r) 0)%Q)
  /\ (forall m o g sd,
         match run_ml_inference m (system_tick g) sd with
         | Some r =>
             match alert_decision threshold r with
             | Some a =>
                 process_sensor_data m o g sd
                 = (let '(_, g', tr) :=
                      send_wireless_alert o g a (Some sd)
                                          (ml_inference.confidence r) in
                    (g', tr))
             | None => process_sensor_data m o g sd = (g, [])
             end
         | None => process_sensor_data m o g sd = (g, [])
         end)
  /\ ((threshold == 70 # 100)%Q
      /\ alert_decision threshold (result_with CLASS_PEST_RISK (70 # 100))
         = None
      /\ alert_decision threshold
           (result_with CLASS_PEST_RISK (70001 # 100000))
         = Some ALERT_PEST_RISK
      /\ alert_decision threshold (result_with CLASS_NORMAL 1) = None).
Proof.
  split; [|split; [|split]].
  - intros t r. split; [|split; [|split]].
    + intros a H. apply alert_decision_some in H.
      destruct H as [Hlt [[Hc _] | [Hc _]]]; split; try exact Hlt;
        rewrite Hc; discriminate.
    + intros H. unfold alert_decision.
      apply Qlt_bool_false in H. rewrite H. reflexivity.
    + intros H. unfold alert_decision. rewrite H.
      destruct (Qlt_bool t (ml_inference.confidence r)); reflexivity.
    + intros H. apply Qlt_bool_true in H. unfold alert_decision.
      rewrite H. split; intros ->; reflexivity.
  - intros t m o0 o1 o2 it a r H.
    apply alert_decision_some in H. destruct H as [Hlt _].
    unfold r in *. rewrite <- confidence_is_winning_score. exact Hlt.
  - intros m o g sd. unfold process_sensor_data.
    destruct (run_ml_inference m (system_tick g) sd) as [r|]; [|reflexivity].
    destruct (alert_decision threshold r); reflexivity.
  - repeat split.
Qed.

(** ** The alert dispatcher *)

Lemma alert_json_text_nonempty (a : alert_message_t) :
  0 < Z.of_nat (String.length (alert_json_text a)).
Proof.
  unfold alert_json_text.
  cbn [String.append String.length]. lia.
Qed.

(** Inside the window after [last_alert_time] the call returns at once. *)
Lemma rate_limited_window (o : outside) (g : globals) (k : alert_type_t)
    (s : option sensor_data_t) (c : Q) :
  0 <= system_tick g - last_alert_time g < MIN_ALERT_INTERVAL_MS ->
  send_wireless_alert o g k s c = (false, g, []).
Proof.
  intros H. unfold send_wireless_alert.
  rewrite to_uint32_small
    by (unfold MIN_ALERT_INTERVAL_MS in H; lia).
  destruct (Z.ltb_spec (system_tick g - last_alert_time g)
                       MIN_ALERT_INTERVAL_MS); [reflexivity | lia].
Qed.

Lemma format_alert_json_cases (o : outside) (a : alert_message_t) (n : nat) :
  (snprintf_error o = true /\ format_alert_json o a n = (-1, EmptyString))
  \/ (snprintf_error o = false
      /\ exists len buf, format_alert_json o a n = (len, buf) /\ 0 < len).
Proof.
  unfold format_alert_json. destruct (snprintf_error o).
  - left. split; reflexivity.
  - right. split; [reflexivity|].
    eexists. eexists. split; [reflexivity|].
    apply alert_json_text_nonempty.
Qed.

Ltac no_post_in_trace :=
  match goal with
  | H : exists body len, In (EvPost body len true) _ |- _ =>
      let b := fresh in let l := fresh in let Hin := fresh in
      destruct H as (b & l & Hin); cbn [In] in Hin;
      repeat (destruct Hin as [Hin | Hin]; [discriminate Hin|]);
      destruct Hin
  end.

Lemma send_wireless_alert_effect (o : outside) (g : globals)
    (k : alert_type_t) (s : option sensor_data_t) (c : Q) :
  let '(ret, g', tr) := send_wireless_alert o g k s c in
  system_tick g' = system_tick g
  /\ last_alert_time g'
     = (if ret then system_tick g else last_alert_time g)
  /\ (ret = true <->
      (MIN_ALERT_INTERVAL_MS
         <= to_uint32 (system_tick g - last_alert_time g)
       /\ (wireless_connected g = true \/ connect_ok o = true)
       /\ snprintf_error o = false
       /\ http_ok o = true))
  /\ (ret = true <-> exists body len, In (EvPost body len true) tr).
Proof.
  unfold send_wireless_alert, wireless_connect, send_http_alert.
  destruct (Z.ltb_spec (to_uint32 (system_tick g - last_alert_time g))
                       MIN_ALERT_INTERVAL_MS) as [Hlim | Hlim].
  { split; [reflexivity|]. split; [reflexivity|].
    split; split; intros Hyp; try discriminate Hyp; try no_post_in_trace.
    destruct Hyp as [Hyp _]. lia. }
  destruct (wireless_connected g) eqn:Hconn;
    [|destruct (connect_ok o) eqn:Hc];
    cbv beta iota zeta delta [negb];
    try match goal with
        | |- context [format_alert_json ?o ?a ?n] =>
            destruct (format_alert_json_cases o a n)
              as [[Herr ->] | [Herr (len & buf & -> & Hlen)]];
            cbv beta iota zeta;
            [ change (-1 <=? 0) with true; cbv beta iota
            | destruct (Z.leb_spec len 0); [lia|];
              destruct (http_ok o) eqn:Hhttp ]
        end.
  all: cbn [system_tick last_alert_time wireless_connected app].
  all: (split; [reflexivity|]); (split; [reflexivity|]).
  all: split; split; intros Hyp.
  all: try discriminate Hyp; try no_post_in_trace.
  all: try (destruct Hyp as (H1 & [H2 | H2] & H3 & H4); congruence).
  all: try (repeat split; solve [lia | reflexivity | congruence | auto]).
  all: try (do 2 eexists; cbn [In app]; eauto; fail).
Qed.

Lemma nondecreasing_weaken (t t' : Z) (l : list Z) :
  t' <= t -> nondecreasing t l -> nondecreasing t' l.
Proof.
  destruct l as [|x l]; simpl; [trivial|].
  intros Hle [H1 H2]. split; [lia | exact H2].
Qed.

Lemma dispatch_effect (g : globals) (i : intent) :
  let '(ret, g', tr) := dispatch g i in
  last_alert_time g' = (if ret then at_tick i else last_alert_time g)
  /\ (ret = true <-> exists body len, In (EvPost body len true) tr)
  /\ (ret = true <->
      (MIN_ALERT_INTERVAL_MS <= to_uint32 (at_tick i - last_alert_time g)
       /\ (wireless_connected g = true \/ connect_ok (from_outside i) = true)
       /\ snprintf_error (from_outside i) = false
       /\ http_ok (from_outside i) = true)).
Proof.
  unfold dispatch.
  pose proof (send_wireless_alert_effect (from_outside i)
                (set_system_tick g (at_tick i)) (kind i) (snapshot i)
                (score i)) as H.
  destruct (send_wireless_alert (from_outside i)
              (set_system_tick g (at_tick i)) (kind i) (snapshot i)
              (score i)) as [[ret g'] tr].
  cbn [set_system_tick system_tick last_alert_time wireless_connected] in H.
  destruct H as (_ & H1 & H2 & H3). auto.
Qed.

(** C5: the rate limiter ignores the alert kind.  Whatever the kind, the
    snapshot and the confidence, a call made less than 300000 ms after
    [last_alert_time] returns false, leaves every static as it was (nothing
    is kept for later) and makes no outside call; so when a first intent
    has been sent, a second one of any kind submitted less than 300000 ms
    later is dropped.  A water-stress alert sent at tick 300000 suppresses
    a pest-risk alert at tick 301000. *)
Theorem rate_limit_is_global :
  (forall o g k s c,
      0 <= system_tick g - last_alert_time g < MIN_ALERT_INTERVAL_MS ->
      send_wireless_alert o g k s c = (false, g, []))
  /\ (forall o1 o2 g k1 k2 s1 s2 c1 c2 g1 tr1 t2,
         send_wireless_alert o1 g k1 s1 c1 = (true, g1, tr1) ->
         0 <= t2 - system_tick g < MIN_ALERT_INTERVAL_MS ->
         send_wireless_alert o2 (set_system_tick g1 t2) k2 s2 c2
         = (false, set_system_tick g1 t2, []))
  /\ (let first := mk_intent 300000 all_ok ALERT_WATER_STRESS
                             (Some end_to_end_sample) (85 # 100) in
      let second := mk_intent 301000 all_ok ALERT_PEST_RISK
                              (Some end_to_end_sample) (85 # 100) in
      map (fun r => (fst (fst r), last_alert_time (snd (fst r))))
          (dispatch_all boot [first; second])
      = [(true, 300000); (false, 300000)]
      /\ map snd (tl (dispatch_all boot [first; second])) = [[]]).
Proof.
  split; [|split].
  - intros. apply rate_limited_window. assumption.
  - intros o1 o2 g k1 k2 s1 s2 c1 c2 g1 tr1 t2 Hsent Hwin.
    pose proof (send_wireless_alert_effect o1 g k1 s1 c1) as H.
    rewrite Hsent in H. destruct H as (_ & Hlast & _).
    apply rate_limited_window.
    cbn [set_system_tick system_tick last_alert_time].
    rewrite Hlast. exact Hwin.
  - vm_compute. split; reflexivity.
Qed.

Lemma rate_limit_is_global_witness :
  send_wireless_alert all_ok
    (mk_globals 301000 true 300000) ALERT_PEST_RISK None 0
  = (false, mk_globals 301000 true 300000, []).
Proof.
  apply (proj1 rate_limit_is_global).
  cbn [system_tick last_alert_time]. unfold MIN_ALERT_INTERVAL_MS. lia.
Defined.

(** C10: while [last_alert_time] still holds its initial 0, every intent
    of every kind submitted at a tick below 300000 is rejected: the call
    returns false, makes no outside call (no connect, no POST) and leaves
    [last_alert_time] at 0, so nothing is delivered in that window. *)
Theorem no_alert_in_first_window (g : globals) (intents : list intent) :
  last_alert_time g = 0 ->
  Forall (fun i => 0 <= at_tick i < MIN_ALERT_INTERVAL_MS) intents ->
  Forall (fun r => fst (fst r) = false
                   /\ snd r = []
                   /\ last_alert_time (snd (fst r)) = 0
                   /\ wireless_connected (snd (fst r))
                      = wireless_connected g)
         (dispatch_all g intents).
Proof.
  intros Hlast Hticks. revert g Hlast.
  induction Hticks as [|i rest Hi _ IH]; intros g Hlast; simpl.
  - constructor.
  - assert (E : dispatch g i = (false, set_system_tick g (at_tick i), [])).
    { unfold dispatch. apply rate_limited_window.
      cbn [set_system_tick system_tick last_alert_time]. lia. }
    rewrite E. constructor.
    + cbn. auto.
    + cbn [fst snd].
      apply (IH (set_system_tick g (at_tick i))). exact Hlast.
Qed.

Lemma no_alert_in_first_window_witness :
  Forall (fun r => fst (fst r) = false
                   /\ snd r = []
                   /\ last_alert_time (snd (fst r)) = 0
                   /\ wireless_connected (snd (fst r)) = false)
         (dispatch_all boot
            [mk_intent 0 all_ok ALERT_LOW_BATTERY None 0;
             mk_intent 30000 all_ok ALERT_PEST_RISK
                       (Some end_to_end_sample) (85 # 100);
             mk_intent 299999 all_ok ALERT_WATER_STRESS
                       (Some end_to_end_sample) 1]).
Proof.
  apply (no_alert_in_first_window boot).
  - reflexivity.
  - unfold MIN_ALERT_INTERVAL_MS.
    repeat constructor; cbn [at_tick]; lia.
Defined.

(** The passes of the main loop made before tick 300000 reach no
    network call. *)
Lemma main_loop_quiet_in_first_window (m : ml_model) (g : globals)
    (i : cycle_input) :
  last_alert_time g = 0 ->
  0 <= system_tick g < MIN_ALERT_INTERVAL_MS ->
  snd (main_loop_body m g i) = []
  /\ last_alert_time (fst (main_loop_body m g i)) = 0.
Proof.
  intros Hlast Htick.
  assert (Hdrop : forall o k s c,
             send_wireless_alert o g k s c = (false, g, []))
    by (intros; apply rate_limited_window; lia).
  unfold main_loop_body, process_sensor_data, check_battery_level.
  destruct (run_ml_inference m (system_tick g) _) as [r|];
    [destruct (alert_decision threshold r); [rewrite Hdrop|]|];
    (destruct (system_tick g mod BATTERY_CHECK_INTERVAL =? 0);
     [destruct (Qlt_bool (battery i) BATTERY_LOW_THRESHOLD);
      [rewrite Hdrop|]|]);
    cbn [fst snd app set_system_tick last_alert_time];
    split; (reflexivity || exact Hlast).
Qed.

(** C6: a call sets [last_alert_time] to the current tick exactly when it
    returns true, which is exactly when its POST succeeded; it leaves it
    as it was when the intent is rate-limited, when connecting fails,
    when encoding the JSON fails and when the delivery fails.  Hence over
    every sequence of calls whose ticks never decrease (and start at or
    after the stored time), [last_alert_time] never decreases. *)
Theorem last_alert_time_monotone :
  (forall g i,
      let '(ret, g', tr) := dispatch g i in
      last_alert_time g' = (if ret then at_tick i else last_alert_time g)
      /\ (ret = true <-> exists body len, In (EvPost body len true) tr)
      /\ (to_uint32 (at_tick i - last_alert_time g) < MIN_ALERT_INTERVAL_MS
          -> last_alert_time g' = last_alert_time g)
      /\ (wireless_connected g = false ->
          connect_ok (from_outside i) = false ->
          last_alert_time g' = last_alert_time g)
      /\ (snprintf_error (from_outside i) = true ->
          last_alert_time g' = last_alert_time g)
      /\ (http_ok (from_outside i) = false ->
          last_alert_time g' = last_alert_time g))
  /\ (forall g intents,
         nondecreasing (last_alert_time g) (map at_tick intents) ->
         nondecreasing (last_alert_time g)
           (map (fun r => last_alert_time (snd (fst r)))
                (dispatch_all g intents))).
Proof.
  split.
  - intros g i. pose proof (dispatch_effect g i) as H.
    destruct (dispatch g i) as [[ret g'] tr].
    destruct H as (Hlast & Hpost & Hret).
    split; [exact Hlast|]. split; [exact Hpost|].
    assert (Hfalse : ret = false -> last_alert_time g' = last_alert_time g)
      by (intros ->; exact Hlast).
    assert (Hsent : ret = true ->
                    MIN_ALERT_INTERVAL_MS
                      <= to_uint32 (at_tick i - last_alert_time g)
                    /\ (wireless_connected g = true
                        \/ connect_ok (from_outside i) = true)
                    /\ snprintf_error (from_outside i) = false
                    /\ http_ok (from_outside i) = true)
      by apply Hret.
    repeat split; intros; apply Hfalse;
      (destruct ret; [exfalso | reflexivity]);
      destruct (Hsent eq_refl) as (H1 & [H2 | H2] & H3 & H4);
      congruence || lia.
  - intros g intents. revert g.
    induction intents as [|i rest IH]; intros g Hticks; simpl; [trivial|].
    simpl in Hticks. destruct Hticks as [Hle Hrest].
    pose proof (dispatch_effect g i) as H.
    destruct (dispatch g i) as [[ret g'] tr]. cbn [fst snd].
    destruct H as (Hlast & _).
    assert (Hbounds : last_alert_time g <= last_alert_time g'
                      /\ last_alert_time g' <= at_tick i)
      by (rewrite Hlast; destruct ret; lia).
    split; [apply Hbounds|].
    apply IH. apply (nondecreasing_weaken (at_tick i)); [apply Hbounds|].
    exact Hrest.
Qed.

Lemma last_alert_time_monotone_witness :
  map (fun r => last_alert_time (snd (fst r)))
      (dispatch_all boot
         [mk_intent 0 all_ok ALERT_LOW_BATTERY None 0;
          mk_intent 300000 all_ok ALERT_WATER_STRESS
                    (Some end_to_end_sample) (85 # 100);
          mk_intent 301000 all_ok ALERT_PEST_RISK
                    (Some end_to_end_sample) (85 # 100);
          mk_intent 700000 all_ok ALERT_PEST_RISK
                    (Some end_to_end_sample) (85 # 100)])
  = [0; 300000; 300000; 700000]
  /\ nondecreasing 0 [0; 300000; 300000; 700000].
Proof.
  split; [vm_compute; reflexivity|].
  apply (proj2 last_alert_time_monotone boot
           [mk_intent 0 all_ok ALERT_LOW_BATTERY None 0;
            mk_intent 300000 all_ok ALERT_WATER_STRESS
                      (Some end_to_end_sample) (85 # 100);
            mk_intent 301000 all_ok ALERT_PEST_RISK
                      (Some end_to_end_sample) (85 # 100);
            mk_intent 700000 all_ok ALERT_PEST_RISK
                      (Some end_to_end_sample) (85 # 100)]).
  cbn. lia.
Defined.

(** ** The alert payload *)

Lemma string_app_assoc (a b c : string) :
  ((a ++ b) ++ c = a ++ (b ++ c))%string.
Proof.
  induction a as [|x a IH]; simpl; [reflexivity|].
  rewrite IH. reflexivity.
Qed.

Lemma prefix_app (n a b : string) :
  prefix n a = true -> prefix n (a ++ b) = true.
Proof.
  revert a. induction n as [|c n IH]; intros a H.
  - destruct (a ++ b)%string; reflexivity.
  - destruct a as [|d a]; simpl in H; [discriminate|].
    simpl. destruct (ascii_dec c d); [|discriminate].
    apply IH. exact H.
Qed.

Lemma prefix_self_app (n b : string) : prefix n (n ++ b) = true.
Proof.
  induction n as [|c n IH]; simpl.
  - destruct b; reflexivity.
  - destruct (ascii_dec c c); [exact IH | congruence].
Qed.

Lemma contains_app_r (n a b : string) :
  contains n b = true -> contains n (a ++ b) = true.
Proof.
  intros H. induction a as [|c a IH]; simpl; [exact H|].
  rewrite IH.
  destruct (match n with
            | EmptyString => true
            | String a0 s1' =>
                if ascii_dec a0 c then prefix s1' (a ++ b) else false
            end); reflexivity.
Qed.

Lemma contains_self_app (n b : string) : contains n (n ++ b) = true.
Proof.
  destruct n as [|c n]; [destruct b; reflexivity|].
  simpl. destruct (ascii_dec c c); [|congruence].
  rewrite prefix_self_app. reflexivity.
Qed.

(** The encoder prints the [sensor_data] member of every alert it is
    given: the object and its four values are part of the text whatever
    the alert kind. *)
Lemma alert_json_text_sensor_data (a : alert_message_t) :
  contains (key "sensor_data" ++ "{" ++ newline
            ++ "    " ++ key "moisture"
            ++ printf_f 1 (soil_moisture (sensor_data a)) ++ "," ++ newline
            ++ "    " ++ key "temperature"
            ++ printf_f 1 (temperature (sensor_data a)) ++ "," ++ newline
            ++ "    " ++ key "humidity"
            ++ printf_f 1 (humidity (sensor_data a)) ++ "," ++ newline
            ++ "    " ++ key "audio"
            ++ printf_f 2 (audio_energy (sensor_data a)) ++ newline
            ++ "  },")
           (alert_json_text a) = true.
Proof.
  unfold alert_json_text.
  generalize (printf_f 1 (soil_moisture (sensor_data a)))
             (printf_f 1 (temperature (sensor_data a)))
             (printf_f 1 (humidity (sensor_data a)))
             (printf_f 2 (audio_energy (sensor_data a)))
             (str (get_alert_recommendation (alert_type a)))
             (printf_d (confidence a))
             (str (get_alert_type_string (alert_type a)))
             (printf_d (timestamp a))
             (str (device_id a)).
  intros m t h au rec cf ty ts dev.
  do 23 (apply contains_app_r).
  set (rest := (newline ++ "  " ++ key "recommendation" ++ rec
                ++ newline ++ "}")%string).
  rewrite <- !string_app_assoc.
  apply contains_self_app.
Qed.

(** C9, the code at the low-battery call: [check_battery_level] passes a
    NULL snapshot, and the payload that is posted still carries the
    [sensor_data] object, filled from whatever the local [alert] held.
    An alert with a snapshot carries the four values of the snapshot (the
    end-to-end sample posts 20.0, 35.0, 80.0 and 0.90).  The encoder has
    no case without the object: for every alert the text holds it with
    the four values of the alert's [sensor_data] member. *)
Theorem low_battery_payload_carries_sensor_data :
  (forall left_over : sensor_data_t,
      match snd (check_battery_level (network_up left_over)
                   (set_system_tick boot 3600000) (32 # 10)) with
      | [EvConnect true; EvPost body len true] =>
          contains (key "alert_type" ++ str "low_battery") body = true
          /\ contains (key "sensor_data") body = true
          /\ contains (str "moisture") body = true
      | _ => False
      end)
  /\ match send_wireless_alert all_ok (set_system_tick boot 300000)
             ALERT_PEST_RISK (Some end_to_end_sample) (85 # 100) with
     | (true, _, [EvConnect true; EvPost body len true]) =>
         contains (key "moisture" ++ "20.0,") body = true
         /\ contains (key "temperature" ++ "35.0,") body = true
         /\ contains (key "humidity" ++ "80.0,") body = true
         /\ contains (key "audio" ++ "0.90") body = true
     | _ => False
     end
  /\ (forall a : alert_message_t,
         contains (key "sensor_data" ++ "{" ++ newline
                   ++ "    " ++ key "moisture"
                   ++ printf_f 1 (soil_moisture (sensor_data a))
                   ++ "," ++ newline
                   ++ "    " ++ key "temperature"
                   ++ printf_f 1 (temperature (sensor_data a))
                   ++ "," ++ newline
                   ++ "    " ++ key "humidity"
                   ++ printf_f 1 (humidity (sensor_data a))
                   ++ "," ++ newline
                   ++ "    " ++ key "audio"
                   ++ printf_f 2 (audio_energy (sensor_data a)) ++ newline
                   ++ "  },")
                  (alert_json_text a) = true).
Proof.
  split; [|split].
  - intros [m t h au ts].
    cbv -[printf_f]. repeat split.
  - vm_compute. repeat split.
  - apply alert_json_text_sensor_data.
Qed.

(** ** The circular buffer *)

Section CircularBuffer.

Import utils.

Local Open Scope nat_scope.

Lemma wrap_index (h k n : nat) :
  h < n -> k <= n ->
  (h + k) mod n = if h + k <? n then h + k else h + k - n.
Proof.
  intros Hh Hk. destruct (Nat.ltb_spec (h + k) n) as [Hlt | Hge].
  - apply Nat.mod_small. exact Hlt.
  - symmetry. apply (Nat.mod_unique _ _ 1); lia.
Qed.

Lemma store_length (l : list Q) (i : nat) (x : Q) :
  List.length (store l i x) = List.length l.
Proof.
  revert i. induction l as [|a l IH]; intros [|i]; simpl; auto.
Qed.

Lemma nth_store_same (l : list Q) (i : nat) (x d : Q) :
  i < List.length l -> nth i (store l i x) d = x.
Proof.
  revert i. induction l as [|a l IH]; intros [|i] H; simpl in *;
    try lia; auto. apply IH. lia.
Qed.

Lemma nth_store_other (l : list Q) (i j : nat) (x d : Q) :
  i <> j -> nth i (store l j x) d = nth i l d.
Proof.
  revert i j. induction l as [|a l IH]; intros [|i] [|j] H; simpl;
    try reflexivity; try lia. apply IH. lia.
Qed.

Lemma init_well_formed (storage : list Q) (n : nat) :
  List.length storage = n -> well_formed (circular_buffer_init storage n).
Proof.
  intros H. unfold well_formed, circular_buffer_init.
  cbn [buffer size head tail count].
  split; [exact H|]. split; [lia|]. split.
  - destruct n; [right; split; reflexivity | left; lia].
  - destruct n; [reflexivity|]. symmetry. apply Nat.mod_small. lia.
Qed.

Lemma push_full (cb : circular_buffer_t) (x : Q) :
  count cb = size cb -> circular_buffer_push cb x = (false, cb).
Proof.
  intros H. unfold circular_buffer_push, circular_buffer_full.
  rewrite H, Nat.eqb_refl. reflexivity.
Qed.

Lemma push_room (cb : circular_buffer_t) (x : Q) :
  well_formed cb -> count cb < size cb ->
  exists cb',
    circular_buffer_push cb x = (true, cb')
    /\ well_formed cb'
    /\ size cb' = size cb
    /\ count cb' = count cb + 1
    /\ contents cb' = (contents cb ++ [x])%list.
Proof.
  intros (Hlen & Hcount & Hhead & Htail) Hroom.
  destruct Hhead as [Hhead | [Hz _]]; [|lia].
  unfold circular_buffer_push, circular_buffer_full.
  destruct (Nat.eqb_spec (count cb) (size cb)) as [E | _]; [lia|].
  eexists. split; [reflexivity|].
  split; [|split; [reflexivity|split; [reflexivity|]]].
  - unfold well_formed. cbn [buffer size head tail count].
    rewrite store_length.
    split; [exact Hlen|]. split; [lia|]. split; [left; exact Hhead|].
    rewrite Htail, Nat.Div0.add_mod_idemp_l. f_equal. lia.
  - unfold contents. cbn [buffer size head tail count].
    rewrite Nat.add_1_r, seq_S, map_app. cbn [map Nat.add]. f_equal.
    + apply map_ext_in. intros k Hk. apply in_seq in Hk.
      apply nth_store_other. rewrite Htail.
      rewrite (wrap_index (head cb) k) by lia.
      rewrite (wrap_index (head cb) (count cb)) by lia.
      destruct (head cb + k <? size cb) eqn:E1;
        destruct (head cb + count cb <? size cb) eqn:E2;
        try apply Nat.ltb_lt in E1; try apply Nat.ltb_ge in E1;
        try apply Nat.ltb_lt in E2; try apply Nat.ltb_ge in E2; lia.
    + f_equal. rewrite <- Htail. apply nth_store_same.
      rewrite Hlen, Htail. apply Nat.mod_upper_bound. lia.
Qed.

Lemma pop_empty (cb : circular_buffer_t) :
  count cb = 0 -> circular_buffer_pop cb = (None, cb).
Proof.
  intros H. unfold circular_buffer_pop, circular_buffer_empty.
  rewrite H. reflexivity.
Qed.

Lemma pop_some (cb : circular_buffer_t) :
  well_formed cb -> 0 < count cb ->
  exists v rest cb',
    contents cb = v :: rest
    /\ circular_buffer_pop cb = (Some v, cb')
    /\ well_formed cb'
    /\ size cb' = size cb
    /\ count cb' = count cb - 1
    /\ contents cb' = rest.
Proof.
  intros (Hlen & Hcount & Hhead & Htail) Hsome.
  destruct Hhead as [Hhead | [Hz _]]; [|lia].
  unfold circular_buffer_pop, circular_buffer_empty.
  destruct (Nat.eqb_spec (count cb) 0) as [E | _]; [lia|].
  unfold contents at 1.
  destruct (count cb) as [|c] eqn:Ec; [lia|].
  simpl seq. simpl map.
  do 3 eexists. split; [reflexivity|].
  rewrite Nat.add_0_r, (Nat.mod_small _ _ Hhead).
  split; [reflexivity|].
  split; [|split; [reflexivity|split; [reflexivity|]]].
  - unfold well_formed. cbn [buffer size head tail count].
    split; [exact Hlen|]. split; [lia|]. split.
    + left. apply Nat.mod_upper_bound. lia.
    + rewrite Htail, Nat.Div0.add_mod_idemp_l. f_equal. lia.
  - unfold contents. cbn [buffer size head tail count].
    replace (S c - 1) with c by lia.
    rewrite <- seq_shift, map_map.
    apply map_ext. intros k.
    rewrite Nat.Div0.add_mod_idemp_l. f_equal. f_equal. lia.
Qed.


Lemma apply_op_well_formed (cb : circular_buffer_t) (o : op) :
  well_formed cb ->
  well_formed (snd (apply_op cb o)) /\ size (snd (apply_op cb o)) = size cb.
Proof.
  intros Hwf. destruct o as [x|]; unfold apply_op.
  - destruct (Nat.eq_dec (count cb) (size cb)) as [E | E].
    + rewrite (push_full cb x E). split; [exact Hwf | reflexivity].
    + destruct (push_room cb x Hwf) as (cb' & -> & Hwf' & Hs & _).
      { destruct Hwf as (_ & Hc & _). lia. }
      split; assumption.
  - destruct (Nat.eq_dec (count cb) 0) as [E | E].
    + rewrite (pop_empty cb E). split; [exact Hwf | reflexivity].
    + destruct (pop_some cb Hwf) as (v & rest & cb' & _ & -> & Hwf' & Hs & _);
        [lia|].
      split; assumption.
Qed.

Lemma run_ops_well_formed (ops : list op) (cb : circular_buffer_t) :
  well_formed cb ->
  well_formed (snd (run_ops cb ops)) /\ size (snd (run_ops cb ops)) = size cb.
Proof.
  revert cb. induction ops as [|o ops IH]; intros cb Hwf; simpl.
  - split; [exact Hwf | reflexivity].
  - destruct (apply_op_well_formed cb o Hwf) as [Hwf1 Hs1].
    destruct (apply_op cb o) as [r cb1]. simpl in Hwf1, Hs1.
    destruct (IH cb1 Hwf1) as [Hwf2 Hs2].
    destruct (run_ops cb1 ops) as [rs cb2]. simpl in *.
    split; [exact Hwf2 | congruence].
Qed.

Lemma run_ops_app (l1 l2 : list op) (cb : circular_buffer_t) :
  run_ops cb (l1 ++ l2)
  = (fst (run_ops cb l1) ++ fst (run_ops (snd (run_ops cb l1)) l2),
     snd (run_ops (snd (run_ops cb l1)) l2))%list.
Proof.
  revert cb. induction l1 as [|o l1 IH]; intros cb; simpl.
  - destruct (run_ops cb l2); reflexivity.
  - destruct (apply_op cb o) as [r cb1]. rewrite IH.
    destruct (run_ops cb1 l1) as [rs cb2]. reflexivity.
Qed.

(** Pushes that find room all succeed and append in order. *)
Lemma push_all_room (xs : list Q) (cb : circular_buffer_t) :
  well_formed cb -> count cb + List.length xs <= size cb ->
  fst (run_ops cb (map Push xs)) = repeat true (List.length xs)
  /\ count (snd (run_ops cb (map Push xs))) = count cb + List.length xs
  /\ contents (snd (run_ops cb (map Push xs))) = (contents cb ++ xs)%list.
Proof.
  revert cb. induction xs as [|x xs IH]; intros cb Hwf Hroom; simpl.
  - rewrite app_nil_r. repeat split. lia.
  - simpl in Hroom.
    destruct (push_room cb x Hwf) as (cb' & -> & Hwf' & Hs & Hc & Hcont);
      [lia|].
    destruct (IH cb' Hwf') as (Hr & Hc' & Hcont'); [lia|].
    destruct (run_ops cb' (map Push xs)) as [rs cb2]. simpl in *.
    split; [congruence|]. split; [lia|].
    rewrite Hcont', Hcont, <- app_assoc. reflexivity.
Qed.

(** Popping a whole window returns it oldest value first and empties it. *)
Lemma pop_all (n : nat) (cb : circular_buffer_t) :
  well_formed cb -> count cb = n ->
  fst (pop_n cb n) = map Some (contents cb)
  /\ count (snd (pop_n cb n)) = 0.
Proof.
  revert cb. induction n as [|n IH]; intros cb Hwf Hn; simpl.
  - split; [|exact Hn]. unfold contents. rewrite Hn. reflexivity.
  - destruct (pop_some cb Hwf)
      as (v & rest & cb' & Hcont & -> & Hwf' & Hs & Hc & Hrest); [lia|].
    destruct (IH cb' Hwf') as [Hr Hz]; [lia|].
    destruct (pop_n cb' n) as [rs cb2]. simpl in *.
    split; [|exact Hz]. rewrite Hcont, Hr, Hrest. reflexivity.
Qed.

Lemma pop_n_succ (n : nat) (cb : circular_buffer_t) :
  fst (pop_n cb (n + 1))
  = (fst (pop_n cb n)
     ++ [fst (circular_buffer_pop (snd (pop_n cb n)))])%list.
Proof.
  revert cb. induction n as [|n IH]; intros cb; simpl.
  - destruct (circular_buffer_pop cb); reflexivity.
  - destruct (circular_buffer_pop cb) as [r cb1].
    specialize (IH cb1).
    destruct (pop_n cb1 (n + 1)) as [rs cb2].
    destruct (pop_n cb1 n) as [rs' cb2']. simpl in *.
    rewrite IH. reflexivity.
Qed.


(** C7: for a buffer of capacity N over its own storage: a push into a
    full buffer returns false and changes nothing; pushing N + 1 values
    into the empty buffer succeeds N times and fails once, leaving exactly
    the first N values in FIFO order (the buffer the first N pushes
    built); a pop from an empty buffer fails; popping the full buffer
    N + 1 times returns the N values oldest first and fails on the last
    pop; the mean and the standard deviation of an empty buffer are 0;
    and after every sequence of pushes and pops the count is at most the
    capacity. *)
Theorem stats_buffer_boundary (sqrtf : Q -> Q) (storage : list Q) (N : nat) :
  List.length storage = N ->
  let fresh := circular_buffer_init storage N in
  (forall cb x,
      count cb = size cb -> circular_buffer_push cb x = (false, cb))
  /\ (forall xs,
         List.length xs = N + 1 ->
         fst (run_ops fresh (map Push xs)) = (repeat true N ++ [false])%list
         /\ count (snd (run_ops fresh (map Push xs))) = N
         /\ contents (snd (run_ops fresh (map Push xs))) = firstn N xs
         /\ snd (run_ops fresh (map Push xs))
            = snd (run_ops fresh (map Push (firstn N xs))))
  /\ (forall cb, count cb = 0 -> circular_buffer_pop cb = (None, cb))
  /\ (forall xs,
         List.length xs = N ->
         fst (pop_n (snd (run_ops fresh (map Push xs))) (N + 1))
         = (map Some xs ++ [None])%list)
  /\ (forall cb,
         count cb = 0 ->
         circular_buffer_mean cb = 0%Q
         /\ circular_buffer_stddev sqrtf cb = 0%Q)
  /\ (forall ops,
         count (snd (run_ops fresh ops)) <= size (snd (run_ops fresh ops))
         /\ size (snd (run_ops fresh ops)) = N).
Proof.
  intros Hlen fresh.
  pose proof (init_well_formed storage N Hlen) as Hwf. fold fresh in Hwf.
  assert (Hpushed : forall ys,
             List.length ys = N ->
             fst (run_ops fresh (map Push ys)) = repeat true N
             /\ count (snd (run_ops fresh (map Push ys))) = N
             /\ contents (snd (run_ops fresh (map Push ys))) = ys).
  { intros ys Hys.
    destruct (push_all_room ys fresh Hwf) as (Hr & Hc & Hcont).
    - simpl. lia.
    - rewrite Hys in Hr, Hc. simpl in Hc. auto. }
  split; [exact push_full|].
  split; [|split; [exact pop_empty|split; [|split]]].
  - intros xs Hxs.
    assert (Hsplit : xs = (firstn N xs ++ skipn N xs)%list)
      by (symmetry; apply firstn_skipn).
    assert (Hfirst : List.length (firstn N xs) = N)
      by (rewrite length_firstn; lia).
    destruct (skipn N xs) as [|z [|z' tl]] eqn:Hskip;
      try (apply (f_equal (@List.length Q)) in Hskip;
           rewrite length_skipn in Hskip; simpl in Hskip; lia).
    destruct (Hpushed (firstn N xs) Hfirst) as (Hr & Hc & Hcont).
    destruct (run_ops_well_formed (map Push (firstn N xs)) fresh Hwf)
      as [_ Hsize].
    remember (firstn N xs) as pre eqn:Hpre.
    rewrite Hsplit, map_app, run_ops_app.
    cbn [fst snd map run_ops apply_op].
    rewrite push_full by (rewrite Hc, Hsize; reflexivity).
    cbn [fst snd]. rewrite Hr. auto.
  - intros xs Hxs.
    destruct (Hpushed xs Hxs) as (_ & Hc & Hcont).
    destruct (run_ops_well_formed (map Push xs) fresh Hwf) as [Hwf' _].
    destruct (pop_all N _ Hwf' Hc) as [Hr Hz].
    rewrite pop_n_succ, Hr, Hcont, (pop_empty _ Hz). reflexivity.
  - intros cb Hc.
    unfold circular_buffer_stddev, circular_buffer_mean,
      circular_buffer_empty.
    rewrite Hc. split; reflexivity.
  - intros ops.
    destruct (run_ops_well_formed ops fresh Hwf) as [(_ & Hc & _) Hs].
    split; [exact Hc | exact Hs].
Qed.

Lemma stats_buffer_boundary_witness :
  fst (run_ops (circular_buffer_init [0; 0; 0]%Q 3)
         (map Push [1; 2; 3; 4]%Q))
  = [true; true; true; false]
  /\ contents (snd (run_ops (circular_buffer_init [0; 0; 0]%Q 3)
                      (map Push [1; 2; 3; 4]%Q)))
     = [1; 2; 3]%Q.
Proof.
  destruct (stats_buffer_boundary (fun x => x) [0; 0; 0]%Q 3 eq_refl)
    as (_ & H & _).
  destruct (H [1; 2; 3; 4]%Q eq_refl) as (Hr & _ & Hc & _).
  split; [exact Hr | exact Hc].
Defined.

End CircularBuffer.

(** * Further properties of the sources *)

(** ** The dispatcher, path by path *)

(** [send_wireless_alert] written out by its exits. *)
Lemma send_wireless_alert_paths (o : outside) (g : globals)
    (k : alert_type_t) (s : option sensor_data_t) (c : Q) :
  send_wireless_alert o g k s c
  = let text := alert_json_text (build_alert o g k s c) in
    let body := substring 0 255 text in
    let len := Z.of_nat (String.length text) in
    if to_uint32 (system_tick g - last_alert_time g) <? MIN_ALERT_INTERVAL_MS
    then (false, g, [])
    else if wireless_connected g then
      if snprintf_error o then (false, g, [])
      else (http_ok o,
            if http_ok o then set_last_alert_time g else g,
            [EvPost body len (http_ok o)])
    else if connect_ok o then
      if snprintf_error o then (false, set_connected g, [EvConnect true])
      else (http_ok o,
            if http_ok o then set_last_alert_time (set_connected g)
            else set_connected g,
            [EvConnect true; EvPost body len (http_ok o)])
    else (false, g, [EvConnect false]).
Proof.
  unfold send_wireless_alert, wireless_connect, send_http_alert,
    format_alert_json.
  fold (build_alert o g k s c).
  change {| device_id := DEVICE_ID;
            timestamp := system_tick g;
            alert_type := k;
            confidence := to_uint8 (Qtrunc (round32 (c * 100)));
            sensor_data := match s with
                           | Some d => d
                           | None => stack_sensor_data o
                           end |}
    with (build_alert o g k s c).
  cbv zeta.
  pose proof (alert_json_text_nonempty (build_alert o g k s c)) as Hpos.
  destruct (to_uint32 (system_tick g - last_alert_time g)
            <? MIN_ALERT_INTERVAL_MS); [reflexivity|].
  destruct (wireless_connected g) eqn:Hconn;
    [|destruct (connect_ok o)];
    cbv beta iota zeta delta [negb];
    try reflexivity;
    destruct (snprintf_error o); cbv beta iota zeta;
    try reflexivity;
    change {| device_id := DEVICE_ID;
              timestamp := system_tick g;
              alert_type := k;
              confidence := to_uint8 (Qtrunc (round32 (c * 100)));
              sensor_data := match s with
                             | Some d => d
                             | None => stack_sensor_data o
                             end |}
      with (build_alert o g k s c);
    (destruct (Z.leb_spec
                 (Z.of_nat (String.length
                              (alert_json_text (build_alert o g k s c)))) 0);
     [lia|]);
    unfold set_last_alert_time, set_connected;
    cbn [system_tick wireless_connected last_alert_time app];
    try rewrite Hconn; destruct (http_ok o); reflexivity.
Qed.

(** What a POST of a call carries. *)
Lemma post_body (o : outside) (g : globals) (k : alert_type_t)
    (s : option sensor_data_t) (c : Q) (body : string) (len : Z)
    (ok : bool) :
  In (EvPost body len ok) (snd (send_wireless_alert o g k s c)) ->
  body = substring 0 255 (alert_json_text (build_alert o g k s c))
  /\ len = Z.of_nat (String.length (alert_json_text (build_alert o g k s c))).
Proof.
  rewrite send_wireless_alert_paths. cbv zeta.
  generalize (alert_json_text (build_alert o g k s c)). intros text Hin.
  destruct (to_uint32 (system_tick g - last_alert_time g)
            <? MIN_ALERT_INTERVAL_MS); [destruct Hin|].
  destruct (wireless_connected g); [|destruct (connect_ok o)];
    try destruct (snprintf_error o); cbn [snd In] in Hin;
    repeat (destruct Hin as [Hin | Hin]; try discriminate Hin);
    try contradiction; injection Hin as <- <- _; split; reflexivity.
Qed.


(** ** The size of the payload *)

Lemma string_length_app (a b : string) :
  String.length (a ++ b) = (String.length a + String.length b)%nat.
Proof. induction a as [|x a IH]; simpl; [reflexivity|]. rewrite IH. reflexivity. Qed.

Lemma substring_0_length (n : nat) (s : string) :
  String.length (substring 0 n s) = Nat.min n (String.length s).
Proof.
  revert s. induction n as [|n IH]; intros [|x s]; simpl; try reflexivity.
  rewrite IH. reflexivity.
Qed.

Lemma zeros_length (n : nat) :
  String.length (concat "" (repeat "0"%string n)) = n.
Proof.
  induction n as [|[|n] IH]; try reflexivity.
  change (repeat "0"%string (S (S n)))
    with ("0"%string :: repeat "0"%string (S n)).
  cbn [concat]. change (repeat "0"%string (S n))
    with ("0"%string :: repeat "0"%string n) at 1.
  cbv beta iota. fold (repeat "0"%string (S n)).
  rewrite !string_length_app, IH. reflexivity.
Qed.

Lemma pad_zeros_length (width : nat) (s : string) :
  (width <= String.length (pad_zeros width s))%nat.
Proof.
  unfold pad_zeros. rewrite string_length_app, zeros_length. lia.
Qed.

(** [%.1f] prints at least two characters and [%.2f] at least three. *)
Lemma printf_f_length (prec : nat) (x : Q) :
  (S (S prec) <= String.length (printf_f (S prec) x))%nat.
Proof.
  unfold printf_f. rewrite !string_length_app.
  pose proof (pad_zeros_length (S prec)
                (printf_d (round_half_even
                             (Qabs x * inject_Z (10 ^ Z.of_nat (S prec)))
                           mod 10 ^ Z.of_nat (S prec)))) as H.
  cbn [String.length]. lia.
Qed.

(** The text of an alert of one of the three kinds the firmware sends is
    longer than the 255 characters [json_buffer] can hold. *)
Lemma alert_json_text_too_long (o : outside) (g : globals)
    (k : alert_type_t) (s : option sensor_data_t) (c : Q) :
  k <> ALERT_SYSTEM_ERROR ->
  (258 <= String.length (alert_json_text (build_alert o g k s c)))%nat.
Proof.
  intros Hk. unfold alert_json_text.
  cbn [build_alert device_id timestamp alert_type confidence sensor_data].
  set (sd := match s with Some d => d | None => stack_sensor_data o end).
  pose proof (printf_f_length 0 (soil_moisture sd)) as H1.
  pose proof (printf_f_length 0 (temperature sd)) as H2.
  pose proof (printf_f_length 0 (humidity sd)) as H3.
  pose proof (printf_f_length 1 (audio_energy sd)) as H4.
  rewrite !string_length_app.
  generalize dependent (String.length (printf_f 1 (soil_moisture sd))).
  generalize dependent (String.length (printf_f 1 (temperature sd))).
  generalize dependent (String.length (printf_f 1 (humidity sd))).
  generalize dependent (String.length (printf_f 2 (audio_energy sd))).
  generalize (String.length (printf_d (system_tick g))).
  generalize (String.length (printf_d (to_uint8 (Qtrunc (round32 (c * 100)))))).
  intros n1 n2 n3 H4 n4 H3 n5 H2 n6 H1.
  destruct k; try congruence; vm_compute String.length; lia.
Qed.

(** X1: every POST made for a water-stress, pest-risk or low-battery
    alert is cut short: the JSON text has at least 258 characters, the
    body handed to [send_http_alert] is its first 255 characters (all
    that [json_buffer] holds) and the length handed over with it is the
    length of the whole text. *)
Theorem post_is_always_truncated (o : outside) (g : globals)
    (k : alert_type_t) (s : option sensor_data_t) (c : Q)
    (body : string) (len : Z) (ok : bool) :
  k <> ALERT_SYSTEM_ERROR ->
  In (EvPost body len ok) (snd (send_wireless_alert o g k s c)) ->
  body = substring 0 255 (alert_json_text (build_alert o g k s c))
  /\ len = Z.of_nat (String.length (alert_json_text (build_alert o g k s c)))
  /\ String.length body = 255%nat
  /\ 258 <= len.
Proof.
  intros Hk Hin.
  pose proof (alert_json_text_too_long o g k s c Hk) as Hlong.
  destruct (post_body o g k s c body len ok Hin) as [-> ->].
  split; [reflexivity|]. split; [reflexivity|].
  rewrite substring_0_length.
  generalize dependent
    (String.length (alert_json_text (build_alert o g k s c))).
  intros n Hn. lia.
Qed.

Lemma post_is_always_truncated_witness :
  String.length
    (substring 0 255
       (alert_json_text
          (build_alert all_ok (set_system_tick boot 300000) ALERT_PEST_RISK
                       (Some end_to_end_sample) (85 # 100)))) = 255%nat.
Proof.
  apply (post_is_always_truncated all_ok (set_system_tick boot 300000)
           ALERT_PEST_RISK (Some end_to_end_sample) (85 # 100)
           _ 288 true).
  - discriminate.
  - vm_compute. right. left. reflexivity.
Defined.

(** ** The rate limiter across the wrap of the tick counter *)

Lemma elapsed_modulo (last elapsed : Z) :
  0 <= elapsed < 2 ^ 32 ->
  to_uint32 (to_uint32 (last + elapsed) - last) = elapsed.
Proof.
  intros H. unfold to_uint32.
  rewrite Zminus_mod_idemp_l.
  replace (last + elapsed - last) with elapsed by lia.
  apply Z.mod_small. exact H.
Qed.

(** X2: the limiter measures the time since [last_alert_time] modulo
    2^32, so it stays right when [system_tick] has wrapped around below
    [last_alert_time]: a call made [elapsed] ms after the last sent alert
    is dropped without any outside call when [elapsed < 300000], and
    returns true exactly when [elapsed >= 300000] (300000 itself passes),
    the connection is or gets established, [snprintf] reports no error
    and the POST succeeds. *)
Theorem rate_limit_measures_elapsed_time (o : outside) (g : globals)
    (k : alert_type_t) (s : option sensor_data_t) (c : Q) (elapsed : Z) :
  0 <= elapsed < 2 ^ 32 ->
  system_tick g = to_uint32 (last_alert_time g + elapsed) ->
  (elapsed < MIN_ALERT_INTERVAL_MS ->
   send_wireless_alert o g k s c = (false, g, []))
  /\ (fst (fst (send_wireless_alert o g k s c)) = true <->
      MIN_ALERT_INTERVAL_MS <= elapsed
      /\ (wireless_connected g = true \/ connect_ok o = true)
      /\ snprintf_error o = false
      /\ http_ok o = true).
Proof.
  intros Hel Htick.
  rewrite send_wireless_alert_paths. cbv zeta.
  rewrite Htick, elapsed_modulo by exact Hel.
  destruct (Z.ltb_spec elapsed MIN_ALERT_INTERVAL_MS) as [Hlt | Hge].
  - split; [reflexivity|]. cbn [fst]. split; [discriminate|].
    intros [H _]. lia.
  - split; [lia|].
    destruct (wireless_connected g); [|destruct (connect_ok o)];
      try destruct (snprintf_error o); cbn [fst];
      try destruct (http_ok o);
      (split; [intros H; try discriminate H; auto
              | intros (H1 & [H2 | H2] & H3 & H4);
                reflexivity || discriminate]).
Qed.

Lemma rate_limit_measures_elapsed_time_witness :
  send_wireless_alert all_ok (mk_globals 500 true (2 ^ 32 - 1000))
                      ALERT_PEST_RISK None 0
  = (false, mk_globals 500 true (2 ^ 32 - 1000), []).
Proof.
  apply (rate_limit_measures_elapsed_time all_ok
           (mk_globals 500 true (2 ^ 32 - 1000)) ALERT_PEST_RISK None 0
           1500).
  - lia.
  - reflexivity.
  - reflexivity.
Defined.

(** ** Sequences of calls *)

Lemma dispatch_paths (g : globals) (i : intent) :
  let '(ret, g', tr) := dispatch g i in
  last_alert_time g' = (if ret then at_tick i else last_alert_time g)
  /\ (ret = true ->
      MIN_ALERT_INTERVAL_MS <= to_uint32 (at_tick i - last_alert_time g))
  /\ (wireless_connected g = true ->
      wireless_connected g' = true /\ forallb is_post tr = true)
  /\ (wireless_connected g' = true <->
      wireless_connected g = true \/ In (EvConnect true) tr).
Proof.
  unfold dispatch. rewrite send_wireless_alert_paths. cbv zeta.
  generalize (alert_json_text
                (build_alert (from_outside i)
                   (set_system_tick g (at_tick i)) (kind i) (snapshot i)
                   (score i))).
  intros text.
  cbn [set_system_tick system_tick last_alert_time wireless_connected].
  destruct (Z.ltb_spec (to_uint32 (at_tick i - last_alert_time g))
                       MIN_ALERT_INTERVAL_MS) as [Hlt | Hge].
  { cbn [last_alert_time wireless_connected forallb In].
    repeat split; try discriminate; auto. intros [H | []]. exact H. }
  destruct (wireless_connected g) eqn:Hconn;
    [|destruct (connect_ok (from_outside i))];
    try destruct (snprintf_error (from_outside i));
    try destruct (http_ok (from_outside i));
    unfold set_last_alert_time, set_connected;
    cbn [set_system_tick system_tick last_alert_time wireless_connected
         forallb In is_post andb];
    try rewrite Hconn;
    (split; [reflexivity|]); (split; [intros _; exact Hge || discriminate|]);
    (split; [intros H; try discriminate H; split; reflexivity|]);
    (split; [intros H; try discriminate H; auto
            | intros [H | H]; try discriminate H; try reflexivity;
              repeat (destruct H as [H | H]; try discriminate H);
              try contradiction]).
Qed.

(** X3: over every sequence of calls whose ticks are 32-bit values that
    never decrease and start at or after [last_alert_time], two delivered
    alerts are at least 300000 ms apart, and the first is delivered at
    least 300000 ms after the [last_alert_time] the sequence starts from
    (after tick 300000 when it starts from boot), whatever their kinds. *)
Theorem delivered_alerts_are_spaced (g : globals) (intents : list intent) :
  0 <= last_alert_time g ->
  nondecreasing (last_alert_time g) (map at_tick intents) ->
  Forall (fun i => at_tick i < 2 ^ 32) intents ->
  spaced (last_alert_time g) (delivered g intents).
Proof.
  revert g. induction intents as [|i rest IH]; intros g Hlast Hticks Hbound;
    simpl; [trivial|].
  simpl in Hticks. destruct Hticks as [Hle Hrest].
  inversion Hbound as [|? ? Hi Hbrest]; subst.
  pose proof (dispatch_paths g i) as H.
  destruct (dispatch g i) as [[ret g'] tr]. cbn [fst snd].
  destruct H as (Hl & Hsent & _).
  destruct ret.
  - cbn [app spaced]. split.
    + specialize (Hsent eq_refl).
      rewrite to_uint32_small in Hsent by lia. lia.
    + rewrite <- Hl. apply IH; [lia | rewrite Hl; exact Hrest | exact Hbrest].
  - cbn [app]. rewrite <- Hl. apply IH; [lia | | exact Hbrest].
    rewrite Hl. apply (nondecreasing_weaken (at_tick i)); assumption.
Qed.

Lemma delivered_alerts_are_spaced_witness :
  delivered boot
    [mk_intent 0 all_ok ALERT_LOW_BATTERY None 0;
     mk_intent 300000 all_ok ALERT_WATER_STRESS
               (Some end_to_end_sample) (85 # 100);
     mk_intent 330000 all_ok ALERT_PEST_RISK
               (Some end_to_end_sample) (85 # 100);
     mk_intent 600000 all_ok ALERT_PEST_RISK
               (Some end_to_end_sample) (85 # 100)]
  = [300000; 600000]
  /\ spaced 0 [300000; 600000].
Proof.
  split; [vm_compute; reflexivity|].
  apply (delivered_alerts_are_spaced boot
           [mk_intent 0 all_ok ALERT_LOW_BATTERY None 0;
            mk_intent 300000 all_ok ALERT_WATER_STRESS
                      (Some end_to_end_sample) (85 # 100);
            mk_intent 330000 all_ok ALERT_PEST_RISK
                      (Some end_to_end_sample) (85 # 100);
            mk_intent 600000 all_ok ALERT_PEST_RISK
                      (Some end_to_end_sample) (85 # 100)]).
  - cbn. lia.
  - cbn. lia.
  - repeat constructor.
Defined.

(** X4: the connection flag is only ever set.  Once
    [wireless_connected] is true, every later call of every sequence
    leaves it true and makes no connection attempt (its only possible
    outside call is the POST), so a link that drops is never
    re-established; and a call leaves the flag true exactly when it was
    true before or the call's own connection attempt succeeded. *)
Theorem connection_is_never_reopened :
  (forall g i,
      let '(_, g', tr) := dispatch g i in
      wireless_connected g' = true <->
      wireless_connected g = true \/ In (EvConnect true) tr)
  /\ (forall g intents,
         wireless_connected g = true ->
         Forall (fun r => wireless_connected (snd (fst r)) = true
                          /\ forallb is_post (snd r) = true)
                (dispatch_all g intents)).
Proof.
  split.
  - intros g i. pose proof (dispatch_paths g i) as H.
    destruct (dispatch g i) as [[ret g'] tr]. apply H.
  - intros g intents. revert g.
    induction intents as [|i rest IH]; intros g Hconn; simpl;
      constructor.
    + pose proof (dispatch_paths g i) as H.
      destruct (dispatch g i) as [[ret g'] tr]. cbn [fst snd].
      apply H. exact Hconn.
    + apply IH. pose proof (dispatch_paths g i) as H.
      destruct (dispatch g i) as [[ret g'] tr]. cbn [fst snd].
      destruct H as (_ & _ & H & _). apply H. exact Hconn.
Qed.

Lemma connection_is_never_reopened_witness :
  Forall (fun r => wireless_connected (snd (fst r)) = true
                   /\ forallb is_post (snd r) = true)
         (dispatch_all (mk_globals 300000 true 0)
            [mk_intent 300000
                       (mk_outside false false false zero_sensor_data)
                       ALERT_PEST_RISK None 1]).
Proof.
  apply (proj2 connection_is_never_reopened (mk_globals 300000 true 0)).
  reflexivity.
Defined.

(** X5: one call makes at most one connection attempt and at most one
    POST, the attempt first: its outside calls are none, a failed
    connect, a lone successful connect (when [snprintf] fails), one
    POST, or a successful connect followed by one POST.  When it posts,
    the value returned is the outcome of that single POST: a failed POST
    is not retried within the call. *)
Theorem one_attempt_per_call (o : outside) (g : globals)
    (k : alert_type_t) (s : option sensor_data_t) (c : Q) :
  let '(ret, _, tr) := send_wireless_alert o g k s c in
  (tr = [] /\ ret = false)
  \/ (tr = [EvConnect false] /\ ret = false)
  \/ (tr = [EvConnect true] /\ ret = false)
  \/ (exists body len, tr = [EvPost body len ret])
  \/ (exists body len, tr = [EvConnect true; EvPost body len ret]).
Proof.
  rewrite send_wireless_alert_paths. cbv zeta.
  generalize (alert_json_text (build_alert o g k s c)). intros text.
  destruct (to_uint32 (system_tick g - last_alert_time g)
            <? MIN_ALERT_INTERVAL_MS); [auto|].
  destruct (wireless_connected g); [|destruct (connect_ok o)];
    try destruct (snprintf_error o);
    solve [ auto 6
          | right; right; right; left; eauto
          | right; right; right; right; eauto ].
Qed.

(** X6: a failed delivery does not arm the limiter.  When a call got as
    far as its POST and the POST failed, the same intent submitted again
    at the same tick is not rate-limited and does not reconnect: it posts
    the same kind of body straight away, and only that second POST
    decides whether [last_alert_time] is set. *)
Theorem failed_post_can_be_resubmitted (o1 o2 : outside) (g g1 : globals)
    (k : alert_type_t) (s : option sensor_data_t) (c : Q)
    (tr1 : list event) (body : string) (len : Z) :
  send_wireless_alert o1 g k s c = (false, g1, tr1) ->
  In (EvPost body len false) tr1 ->
  snprintf_error o2 = false ->
  send_wireless_alert o2 g1 k s c
  = (http_ok o2,
     if http_ok o2 then set_last_alert_time g1 else g1,
     [EvPost (substring 0 255 (alert_json_text (build_alert o2 g k s c)))
             (Z.of_nat (String.length
                          (alert_json_text (build_alert o2 g k s c))))
             (http_ok o2)]).
Proof.
  intros Hfirst Hin Herr.
  rewrite send_wireless_alert_paths in Hfirst. cbv zeta in Hfirst.
  rewrite send_wireless_alert_paths. cbv zeta.
  assert (Hb : build_alert o2 g1 k s c = build_alert o2 g k s c
               /\ system_tick g1 = system_tick g
               /\ last_alert_time g1 = last_alert_time g
               /\ wireless_connected g1 = true
               /\ MIN_ALERT_INTERVAL_MS
                  <= to_uint32 (system_tick g - last_alert_time g)).
  { revert Hfirst.
    generalize (alert_json_text (build_alert o1 g k s c)). intros text.
    destruct (Z.ltb_spec (to_uint32 (system_tick g - last_alert_time g))
                         MIN_ALERT_INTERVAL_MS) as [Hlt | Hge];
      [intros Hfirst; injection Hfirst as _ <-; destruct Hin|].
    destruct (wireless_connected g) eqn:Hconn;
      [|destruct (connect_ok o1)];
      try destruct (snprintf_error o1);
      try destruct (http_ok o1);
      intros Hfirst; try discriminate Hfirst;
      injection Hfirst as <- <-; cbn [In] in Hin;
      repeat (destruct Hin as [Hin | Hin]; try discriminate Hin);
      try contradiction;
      unfold build_alert, set_connected;
      cbn [system_tick last_alert_time wireless_connected];
      auto. }
  destruct Hb as (-> & Ht & Hl & -> & Hge).
  rewrite Ht, Hl.
  destruct (Z.ltb_spec (to_uint32 (system_tick g - last_alert_time g))
                       MIN_ALERT_INTERVAL_MS); [lia|].
  rewrite Herr. reflexivity.
Qed.

Lemma failed_post_can_be_resubmitted_witness :
  fst (fst (send_wireless_alert all_ok (mk_globals 300000 true 0)
              ALERT_PEST_RISK (Some end_to_end_sample) (85 # 100)))
  = true.
Proof.
  rewrite (failed_post_can_be_resubmitted
             (mk_outside true false false zero_sensor_data) all_ok
             (mk_globals 300000 false 0) (mk_globals 300000 true 0)
             ALERT_PEST_RISK (Some end_to_end_sample) (85 # 100)
             _ _ _ eq_refl (or_intror (or_introl eq_refl)) eq_refl).
  reflexivity.
Defined.

(** ** The main loop *)

Lemma send_wireless_alert_tick (o : outside) (g : globals)
    (k : alert_type_t) (s : option sensor_data_t) (c : Q) :
  system_tick (snd (fst (send_wireless_alert o g k s c))) = system_tick g.
Proof.
  pose proof (send_wireless_alert_effect o g k s c) as H.
  destruct (send_wireless_alert o g k s c) as [[ret g'] tr].
  apply H.
Qed.

Lemma send_wireless_alert_delivered (o : outside) (g : globals)
    (k : alert_type_t) (s : option sensor_data_t) (c : Q)
    (body : string) (len : Z) :
  In (EvPost body len true) (snd (send_wireless_alert o g k s c)) ->
  last_alert_time (snd (fst (send_wireless_alert o g k s c)))
  = system_tick g.
Proof.
  pose proof (send_wireless_alert_effect o g k s c) as H.
  destruct (send_wireless_alert o g k s c) as [[ret g'] tr].
  cbn [fst snd]. intros Hin.
  destruct H as (_ & Hl & _ & Hp).
  assert (Hr : ret = true) by (apply Hp; eauto).
  rewrite Hl, Hr. reflexivity.
Qed.

Lemma process_sensor_data_tick (m : ml_model) (o : outside) (g : globals)
    (sd : sensor_data_t) :
  system_tick (fst (process_sensor_data m o g sd)) = system_tick g.
Proof.
  unfold process_sensor_data.
  destruct (run_ml_inference m (system_tick g) sd) as [r|]; [|reflexivity].
  destruct (alert_decision threshold r) as [a|]; [|reflexivity].
  pose proof (send_wireless_alert_tick o g a (Some sd)
                (ml_inference.confidence r)) as H.
  destruct (send_wireless_alert o g a (Some sd) (ml_inference.confidence r))
    as [[ret g'] tr]. exact H.
Qed.

Lemma check_battery_level_tick (o : outside) (g : globals) (v : Q) :
  system_tick (fst (check_battery_level o g v)) = system_tick g.
Proof.
  unfold check_battery_level.
  destruct (Qlt_bool v BATTERY_LOW_THRESHOLD); [|reflexivity].
  pose proof (send_wireless_alert_tick o g ALERT_LOW_BATTERY None 0) as H.
  destruct (send_wireless_alert o g ALERT_LOW_BATTERY None 0)
    as [[ret g'] tr]. exact H.
Qed.

(** One pass, written with the results of its two steps. *)
Lemma main_loop_body_steps (m : ml_model) (g : globals) (i : cycle_input) :
  main_loop_body m g i
  = let p := process_sensor_data m (alert_outside i) g
               (read_all_sensors g i) in
    let b := if system_tick (fst p) mod BATTERY_CHECK_INTERVAL =? 0
             then check_battery_level (battery_outside i) (fst p)
                                      (battery i)
             else (fst p, []) in
    (set_system_tick (fst b)
       (to_uint32 (system_tick (fst b) + SENSOR_READ_INTERVAL_MS)),
     snd p ++ snd b).
Proof.
  unfold main_loop_body. fold (read_all_sensors g i). cbv zeta.
  destruct (process_sensor_data m (alert_outside i) g
              (read_all_sensors g i)) as [g1 tr1].
  cbn [fst snd].
  destruct (system_tick g1 mod BATTERY_CHECK_INTERVAL =? 0);
    [|reflexivity].
  destruct (check_battery_level (battery_outside i) g1 (battery i));
    reflexivity.
Qed.

Lemma main_loop_body_tick (m : ml_model) (g : globals) (i : cycle_input) :
  system_tick (fst (main_loop_body m g i))
  = to_uint32 (system_tick g + SENSOR_READ_INTERVAL_MS).
Proof.
  rewrite main_loop_body_steps. cbv zeta.
  cbn [fst set_system_tick system_tick]. f_equal. f_equal.
  destruct (system_tick
              (fst (process_sensor_data m (alert_outside i) g
                      (read_all_sensors g i)))
            mod BATTERY_CHECK_INTERVAL =? 0).
  - rewrite check_battery_level_tick. apply process_sensor_data_tick.
  - apply process_sensor_data_tick.
Qed.

(** X7: at most one alert is delivered per pass.  When the alert raised
    by the classifier is delivered, the battery step of the same pass
    adds no outside call: a low-battery alert due in that pass is dropped
    by the limiter, which the delivery has just armed. *)
Theorem delivered_alert_suppresses_battery_alert (m : ml_model)
    (g : globals) (i : cycle_input) (body : string) (len : Z) :
  In (EvPost body len true)
     (snd (process_sensor_data m (alert_outside i) g
             (read_all_sensors g i))) ->
  snd (main_loop_body m g i)
  = snd (process_sensor_data m (alert_outside i) g (read_all_sensors g i)).
Proof.
  intros Hin. rewrite main_loop_body_steps. cbv zeta. cbn [snd].
  assert (Harmed : last_alert_time
                     (fst (process_sensor_data m (alert_outside i) g
                             (read_all_sensors g i)))
                   = system_tick g).
  { revert Hin. unfold process_sensor_data.
    destruct (run_ml_inference m (system_tick g) (read_all_sensors g i))
      as [r|]; [|intros []].
    destruct (alert_decision threshold r) as [a|]; [|intros []].
    pose proof (send_wireless_alert_delivered (alert_outside i) g a
                  (Some (read_all_sensors g i))
                  (ml_inference.confidence r) body len) as H.
    destruct (send_wireless_alert (alert_outside i) g a
                (Some (read_all_sensors g i)) (ml_inference.confidence r))
      as [[ret g'] tr]. exact H. }
  pose proof (process_sensor_data_tick m (alert_outside i) g
                (read_all_sensors g i)) as Htick.
  destruct (process_sensor_data m (alert_outside i) g
              (read_all_sensors g i)) as [g1 tr1].
  cbn [fst snd] in *.
  destruct (system_tick g1 mod BATTERY_CHECK_INTERVAL =? 0);
    [|apply app_nil_r].
  unfold check_battery_level.
  destruct (Qlt_bool (battery i) BATTERY_LOW_THRESHOLD); [|apply app_nil_r].
  rewrite rate_limited_window
    by (rewrite Htick, Harmed; unfold MIN_ALERT_INTERVAL_MS; lia).
  apply app_nil_r.
Qed.

Lemma delivered_alert_suppresses_battery_alert_witness :
  List.length
    (snd (main_loop_body pest_model (set_system_tick boot 3600000)
            low_battery_pass)) = 2%nat.
Proof.
  rewrite (delivered_alert_suppresses_battery_alert pest_model
             (set_system_tick boot 3600000) low_battery_pass
             (substring 0 255
                (alert_json_text
                   (build_alert all_ok (set_system_tick boot 3600000)
                      ALERT_PEST_RISK
                      (Some (read_all_sensors
                               (set_system_tick boot 3600000)
                               low_battery_pass))
                      (85 # 100))))
             289).
  - vm_compute. reflexivity.
  - vm_compute. right. left. reflexivity.
Defined.

(** X8: the tick counter is driven by the loop alone.  Every pass adds
    exactly 30000 to [system_tick] modulo 2^32, whether the inference
    failed, an alert was sent, dropped or not raised: after n passes the
    counter is (start + 30000 n) mod 2^32, and every pass yields one
    trace of outside calls. *)
Theorem tick_advances_by_read_interval (m : ml_model)
    (inputs : list cycle_input) (g : globals) :
  0 <= system_tick g < 2 ^ 32 ->
  system_tick (fst (main_loop m g inputs))
  = to_uint32 (system_tick g
               + SENSOR_READ_INTERVAL_MS * Z.of_nat (List.length inputs))
  /\ List.length (snd (main_loop m g inputs)) = List.length inputs.
Proof.
  revert g. induction inputs as [|i rest IH]; intros g Hg.
  - cbn [main_loop fst snd List.length Z.of_nat].
    rewrite Z.mul_0_r, Z.add_0_r, to_uint32_small by exact Hg.
    split; reflexivity.
  - cbn [main_loop].
    pose proof (main_loop_body_tick m g i) as Ht.
    destruct (main_loop_body m g i) as [g1 tr]. cbn [fst] in Ht.
    assert (Hg1 : 0 <= system_tick g1 < 2 ^ 32)
      by (rewrite Ht; apply Z.mod_pos_bound; reflexivity).
    destruct (IH g1 Hg1) as [IHt IHl].
    destruct (main_loop m g1 rest) as [g2 trs]. cbn [fst snd] in *.
    split; [|cbn [List.length]; rewrite IHl; reflexivity].
    rewrite IHt, Ht. unfold to_uint32. cbn [List.length].
    rewrite Zplus_mod_idemp_l. f_equal.
    rewrite Nat2Z.inj_succ. lia.
Qed.

Lemma tick_advances_by_read_interval_witness :
  system_tick (fst (main_loop pest_model boot
                      [low_battery_pass; low_battery_pass]))
  = 60000.
Proof.
  rewrite (proj1 (tick_advances_by_read_interval pest_model
                    [low_battery_pass; low_battery_pass] boot
                    (conj (Z.le_refl 0) eq_refl))).
  reflexivity.
Defined.

(** X9: which passes look at the battery.  In the pass that runs at tick
    (30000 n) mod 2^32 (the n-th pass after boot), the battery step runs
    exactly when n is a multiple of 120 as long as the counter has not
    wrapped (30000 n < 2^32); during the whole following period
    (2^32 <= 30000 n < 2^33) the tick is never a multiple of 3600000, so
    the battery is not read and no low-battery alert can be raised: the
    pass depends on neither the battery voltage nor the network state of
    the battery step. *)
Theorem battery_check_schedule (m : ml_model) (g : globals)
    (i : cycle_input) (n : Z) :
  0 <= n ->
  system_tick g = to_uint32 (SENSOR_READ_INTERVAL_MS * n) ->
  let skipped :=
    forall v o,
      main_loop_body m g i
      = main_loop_body m g
          {| reading := reading i; battery := v;
             alert_outside := alert_outside i; battery_outside := o |} in
  let p := process_sensor_data m (alert_outside i) g
             (read_all_sensors g i) in
  (SENSOR_READ_INTERVAL_MS * n < 2 ^ 32 -> n mod 120 <> 0 -> skipped)
  /\ (SENSOR_READ_INTERVAL_MS * n < 2 ^ 32 -> n mod 120 = 0 ->
      snd (main_loop_body m g i)
      = snd p ++ snd (check_battery_level (battery_outside i) (fst p)
                                          (battery i)))
  /\ (2 ^ 32 <= SENSOR_READ_INTERVAL_MS * n < 2 ^ 33 -> skipped).
Proof.
  intros Hn Htick skipped p.
  assert (Hskip : system_tick g mod BATTERY_CHECK_INTERVAL <> 0 -> skipped).
  { intros Hmod v o. rewrite !main_loop_body_steps. cbv zeta.
    unfold read_all_sensors.
    cbn [reading battery alert_outside battery_outside].
    fold (read_all_sensors g i).
    rewrite process_sensor_data_tick.
    destruct (Z.eqb_spec (system_tick g mod BATTERY_CHECK_INTERVAL) 0);
      [contradiction | reflexivity]. }
  unfold SENSOR_READ_INTERVAL_MS, BATTERY_CHECK_INTERVAL, to_uint32 in *.
  split; [|split].
  - intros Hlt Hmod. apply Hskip. rewrite Htick.
    rewrite (Z.mod_small (30000 * n)) by lia.
    change 3600000 with (30000 * 120).
    rewrite Z.mul_mod_distr_l by lia. lia.
  - intros Hlt Hmod. rewrite main_loop_body_steps. cbv zeta.
    fold p. cbn [snd]. f_equal.
    unfold p at 1. rewrite process_sensor_data_tick.
    unfold BATTERY_CHECK_INTERVAL. rewrite Htick.
    rewrite (Z.mod_small (30000 * n)) by lia.
    change 3600000 with (30000 * 120).
    rewrite Z.mul_mod_distr_l, Hmod by lia. reflexivity.
  - intros Hwrap. apply Hskip. rewrite Htick.
    replace ((30000 * n) mod 2 ^ 32) with (30000 * n - 2 ^ 32)
      by (apply (Z.mod_unique _ _ 1); lia).
    intros Hmod. apply Z.mod_divide in Hmod; [|lia].
    destruct Hmod as [q Hq]. lia.
Qed.

Lemma battery_check_schedule_witness :
  snd (main_loop_body statics_at_start
         (set_system_tick boot (to_uint32 (30000 * 143166)))
         low_battery_pass) = [].
Proof.
  destruct (battery_check_schedule statics_at_start
              (set_system_tick boot (to_uint32 (30000 * 143166)))
              low_battery_pass 143166 ltac:(lia) eq_refl) as (_ & _ & H).
  rewrite (H ltac:(unfold SENSOR_READ_INTERVAL_MS; lia) 4%Q all_ok).
  vm_compute. reflexivity.
Defined.

(** ** The inference step *)

Lemma run_ml_inference_some (m : ml_model) (tick : Z) (sd : sensor_data_t)
    (r : ml_result_t) :
  run_ml_inference m tick sd = Some r ->
  interpreter_ready m = true
  /\ exists output_data,
       Invoke m (map (quantize (input_scale m) (input_zero_point m))
                     (features sd)) = Some output_data
       /\ r = process_output m output_data 0.
Proof.
  unfold run_ml_inference.
  destruct (interpreter_ready m); [|discriminate]. cbn [negb].
  destruct (Invoke m _) as [od|]; [|discriminate].
  intros H. injection H as <-. split; [reflexivity|].
  exists od. split; [reflexivity|]. f_equal.
  unfold to_uint32. rewrite Z.sub_diag. reflexivity.
Qed.

(** The loop only looks at the first three entries, and its index stays
    below 3. *)
Lemma argmax3_index (output_data : list Z) :
  0 <= snd (argmax3 output_data) < 3.
Proof.
  unfold argmax3, argmax_step. cbn [fold_left Z.to_nat].
  destruct (_ <? _); destruct (_ <? _); cbn [snd]; lia.
Qed.

(** X10: the inference time that is reported is always 0.  Both time
    stamps of [run_ml_inference] come from [get_current_time_us], which
    reads [system_tick], and only the main loop moves the tick, between
    passes; so no successful inference can ever be seen to exceed a time
    budget. *)
Theorem inference_time_is_always_zero (m : ml_model) (tick : Z)
    (sd : sensor_data_t) (r : ml_result_t) :
  run_ml_inference m tick sd = Some r -> inference_time_us r = 0.
Proof.
  intros H. apply run_ml_inference_some in H.
  destruct H as (_ & od & _ & ->).
  unfold process_output. destruct (argmax3 od). reflexivity.
Qed.

Lemma inference_time_is_always_zero_witness :
  inference_time_us tie_result = 0.
Proof.
  apply (inference_time_is_always_zero tie_model 4294967 end_to_end_sample).
  reflexivity.
Defined.

(** X11: a successful inference never reports [CLASS_UNKNOWN]: whatever
    the output tensor holds, the predicted class is NORMAL, WATER_STRESS
    or PEST_RISK, and the result carries exactly three raw scores. *)
Theorem predicted_class_is_never_unknown (m : ml_model) (tick : Z)
    (sd : sensor_data_t) (r : ml_result_t) :
  run_ml_inference m tick sd = Some r ->
  predicted_class r <> CLASS_UNKNOWN
  /\ List.length (raw_scores r) = 3%nat.
Proof.
  intros H. apply run_ml_inference_some in H.
  destruct H as (_ & od & _ & ->).
  pose proof (argmax3_index od) as Hi.
  unfold process_output. destruct (argmax3 od) as [ms mi].
  cbn [predicted_class raw_scores snd] in *. split; [|reflexivity].
  assert (Hc : mi = 0 \/ mi = 1 \/ mi = 2) by lia.
  destruct Hc as [-> | [-> | ->]]; discriminate.
Qed.

Lemma predicted_class_is_never_unknown_witness :
  predicted_class tie_result <> CLASS_UNKNOWN.
Proof.
  apply (predicted_class_is_never_unknown tie_model 0 end_to_end_sample).
  reflexivity.
Defined.

(** The binary32 score can be below the exact product: 7 * 0.1f is
    rounded to a float below 7/10. *)
Lemma score_below_exact_product :
  (dequantize_f32 scale_0_1f 0 7 < 7 # 10)%Q
  /\ alert_decision (7 # 10) (process_output_f32 tenth_model [0; 7; 0] 0)
     = None.
Proof. split; reflexivity. Qed.

(** X12: the alert decision read off the three int8 scores, for any
    threshold t.  No alert is raised when
    the NORMAL score is at least both others (a tie with NORMAL goes to
    NORMAL); a water-stress alert is raised exactly when the
    water-stress score is above the NORMAL score, at least the pest-risk
    score (a tie between the two goes to water stress) and its binary32
    dequantization is above t; a pest-risk alert exactly when the
    pest-risk score is above both others and its binary32 dequantization
    is above t.  The comparison is with the float the code computes:
    with scale 0.1f and zero point 0 the score 7 dequantizes to a float
    below 7/10 and raises no alert at threshold 7/10
    ([score_below_exact_product]). *)
Theorem alert_decision_by_scores (m : ml_model) (o0 o1 o2 it : Z) (t : Q) :
  let r := process_output_f32 m [o0; o1; o2] it in
  let score := dequantize_f32 (output_scale m) (output_zero_point m) in
  (o1 <= o0 -> o2 <= o0 -> alert_decision t r = None)
  /\ (alert_decision t r = Some ALERT_WATER_STRESS <->
      o0 < o1 /\ o2 <= o1 /\ (t < score o1)%Q)
  /\ (alert_decision t r = Some ALERT_PEST_RISK <->
      o0 < o2 /\ o1 < o2 /\ (t < score o2)%Q).
Proof.
  intros r score. unfold r, score, process_output_f32, alert_decision,
    argmax3, argmax_step.
  simpl fold_left.
  destruct (Z.ltb_spec o0 o1) as [H01 | H01];
    [destruct (Z.ltb_spec o1 o2) as [H12 | H12]
    |destruct (Z.ltb_spec o0 o2) as [H02 | H02]];
    cbn [class_of_index predicted_class ml_inference.confidence];
    match goal with
    | |- context [Qlt_bool t ?x] =>
        destruct (Qlt_bool t x) eqn:E;
        [apply Qlt_bool_true in E | apply Qlt_bool_false in E]
    end;
    (split; [intros; reflexivity || (exfalso; lia)|]);
    split; split;
      try discriminate; try (intros _; repeat split; (lia || exact E));
      try (intros (Ha & Hb & Hc); try (exfalso; lia);
           try reflexivity;
           exfalso; apply (Qlt_not_le _ _ Hc E)).
Qed.

(** ** Quantization on the grid *)

(** X13: quantizing a dequantized value.  When the scale is a power of
    two (2^j with -149 <= j <= 120, a binary32 number whose products
    with the int8 differences are exact), the quantization step applied
    to the dequantized int8 value q with the same parameters returns q.
    For other scales the binary32 round trip can lose a step: with scale
    0.01f and zero point 0 the value 15 comes back as 14. *)
Theorem quantize_dequantize_on_the_grid :
  (forall j zero_point q : Z,
      -149 <= j <= 120 -> fits_int8 zero_point -> fits_int8 q ->
      quantize_f32 (2 ^ j) zero_point (dequantize_f32 (2 ^ j) zero_point q)
      = q)
  /\ quantize_f32 (round32 (1 # 100)) 0
       (dequantize_f32 (round32 (1 # 100)) 0 15) = 14.
Proof.
  split; [|vm_compute; reflexivity].
  intros j zp q Hj Hzp Hq.
  pose proof (pow2_pos j) as Hp.
  assert (Hk : Z.abs (q - zp) <= 255)
    by (unfold fits_int8 in Hq, Hzp; lia).
  set (k := q - zp) in *.
  assert (Ek : (round32 (inject_Z k) == inject_Z k)%Q)
    by (apply round32_int; lia).
  unfold dequantize_f32. fold k.
  set (t := (round32 (inject_Z k) * 2 ^ j)%Q).
  assert (Et : (t == inject_Z k * 2 ^ j)%Q)
    by (unfold t; rewrite Ek; reflexivity).
  assert (Hk' : (Qabs (inject_Z k) <= 255)%Q).
  { apply Qabs_Qle_condition. change 255%Q with (inject_Z 255).
    rewrite <- inject_Z_opp, <- !Zle_Qle. lia. }
  assert (Ht : (Qabs t < 2 ^ (j + 24))%Q).
  { rewrite Et, Qabs_Qmult, (Qabs_pos (2 ^ j)) by apply Qlt_le_weak, Hp.
    rewrite pow2_plus, (Qmult_comm (2 ^ j)).
    apply Qmult_lt_compat_r; [exact Hp|].
    apply (Qle_lt_trans _ 255); [exact Hk' | reflexivity]. }
  assert (Ed : (round32 t == inject_Z k * 2 ^ j)%Q).
  { apply Qle_antisym.
    - apply round32_below; [lia | exact Ht | rewrite Et; apply Qle_refl].
    - apply round32_above; [lia | exact Ht | rewrite Et; apply Qle_refl]. }
  assert (Ex : (round32 t / 2 ^ j == inject_Z k)%Q).
  { rewrite Ed. field. apply Qnot_eq_sym, Qlt_not_eq, Hp. }
  assert (Hx : (Qabs (round32 t / 2 ^ j) < 512)%Q).
  { rewrite Ex. apply (Qle_lt_trans _ 255); [exact Hk' | reflexivity]. }
  destruct (quantized_sum_between (round32 t / 2 ^ j) zp k k 0)
    as [V1 V2]; try assumption; try lia.
  { change (2 ^ 0)%Q with 1%Q. rewrite Qmult_1_r, Ex. apply Qle_refl. }
  { change (2 ^ 0)%Q with 1%Q. rewrite Qmult_1_r, Ex. apply Qle_refl. }
  change (2 ^ 0)%Q with 1%Q in V1, V2. rewrite Qmult_1_r in V1, V2.
  rewrite <- inject_Z_plus in V1, V2.
  replace (k + zp) with q in V1, V2 by (unfold k; lia).
  unfold quantize_f32.
  rewrite (Qtrunc_comp _ (inject_Z q))
    by (apply Qle_antisym; assumption).
  rewrite Qtrunc_inject_Z. apply to_int8_fits. exact Hq.
Qed.

(** The binary32 dequantization is the exact product, rounded once. *)
Lemma dequantize_f32_error (scale : Q) (zero_point q : Z) :
  Z.abs (q - zero_point) < 16777216 ->
  (Qabs (dequantize_f32 scale zero_point q - dequantize scale zero_point q)
   <= Qabs (dequantize scale zero_point q) * 2 ^ (-24) + 2 ^ (-150))%Q.
Proof.
  intros Hk. unfold dequantize_f32, dequantize.
  pose proof (round32_int (q - zero_point) Hk) as Ek.
  set (t := (round32 (inject_Z (q - zero_point)) * scale)%Q).
  assert (Et : (t == inject_Z (q - zero_point) * scale)%Q)
    by (unfold t; rewrite Ek; reflexivity).
  rewrite <- Et. apply round32_error.
Qed.

(** X24: the binary32 result follows the exact reading of the scores.
    For int8 scores and an int8 zero point, the result computed with
    binary32 dequantization has the class of the result computed with
    the exact product (score - zero_point) * scale, and its confidence
    differs from that product by at most its 2^-24 part plus 2^-150: the
    difference is converted without error and the product is rounded
    once. *)
Theorem f32_result_follows_exact_result (m : ml_model) (o0 o1 o2 it : Z) :
  fits_int8 o0 -> fits_int8 o1 -> fits_int8 o2 ->
  fits_int8 (output_zero_point m) ->
  let r := process_output_f32 m [o0; o1; o2] it in
  let e := process_output m [o0; o1; o2] it in
  predicted_class r = predicted_class e
  /\ (Qabs (ml_inference.confidence r - ml_inference.confidence e)
      <= Qabs (ml_inference.confidence e) * 2 ^ (-24) + 2 ^ (-150))%Q.
Proof.
  intros H0 H1 H2 Hzp r e. unfold r, e, process_output_f32, process_output.
  pose proof (argmax3_spec o0 o1 o2) as H.
  destruct (argmax3 [o0; o1; o2]) as [ms mi].
  cbn [predicted_class ml_inference.confidence].
  split; [reflexivity|].
  apply dequantize_f32_error.
  destruct H as (Hr & Hms & _).
  assert (Hc : mi = 0 \/ mi = 1 \/ mi = 2) by lia.
  unfold fits_int8 in *.
  destruct Hc as [-> | [-> | ->]]; vm_compute in Hms; subst ms; lia.
Qed.

Lemma f32_result_follows_exact_result_witness :
  predicted_class (process_output_f32 tenth_model [0; 7; 0] 0)
  = predicted_class (process_output tenth_model [0; 7; 0] 0).
Proof.
  apply (f32_result_follows_exact_result tenth_model 0 7 0 0);
    unfold fits_int8; cbn; lia.
Defined.






(** ** Strings of the payload *)

(** X17: the alert kind can be read back from the payload: two
    different kinds never share their [alert_type] string, nor their
    recommendation text ([ALERT_SYSTEM_ERROR], which both switches leave
    to [default], included). *)
Theorem alert_strings_identify_the_kind :
  (forall a b,
      get_alert_type_string a = get_alert_type_string b -> a = b)
  /\ (forall a b,
         get_alert_recommendation a = get_alert_recommendation b -> a = b).
Proof.
  split; intros a b H; destruct a; destruct b;
    try reflexivity; discriminate H.
Qed.

(** X18: the confidence in the payload is the binary32 product 100 c cut
    off to an integer.  For a confidence c between 0 and 1 the alert
    that is encoded carries p = trunc (round32 (100 c)), with
    0 <= p <= 100 and p one of the two integers around the exact 100 c
    (0.999 is reported as 99, and 0.83f, which is below 83/100, as 83);
    p is printed after the [confidence] key of the text whose first 255
    characters every POST of the call carries. *)
Theorem payload_confidence_is_cut_off (o : outside) (g : globals)
    (k : alert_type_t) (s : option sensor_data_t) (c : Q) :
  (0 <= c <= 1)%Q ->
  let a := build_alert o g k s c in
  confidence a = Qtrunc (round32 (c * 100))
  /\ 0 <= confidence a <= 100
  /\ Qfloor (c * 100) <= confidence a <= Qceiling (c * 100)
  /\ (Qabs (inject_Z (confidence a) - c * 100) < 1)%Q
  /\ contains (key "confidence" ++ printf_d (confidence a) ++ ",")
              (alert_json_text a) = true
  /\ (forall body len ok,
         In (EvPost body len ok) (snd (send_wireless_alert o g k s c)) ->
         body = substring 0 255 (alert_json_text a)).
Proof.
  intros Hc a.
  destruct (confidence_percent_fits c Hc) as (Hr & _ & Hfit).
  destruct (confidence_percent_near c Hc) as (Hb & Hn).
  assert (Hconf : confidence a = Qtrunc (round32 (c * 100))) by exact Hfit.
  rewrite Hconf.
  split; [reflexivity|]. split; [exact Hr|]. split; [exact Hb|].
  split; [exact Hn|]. split.
  - unfold alert_json_text. rewrite Hconf.
    do 18 (apply contains_app_r).
    match goal with
    | |- contains _ (_ ++ _ ++ _ ++ ?r)%string = _ => set (rest := r)
    end.
    rewrite <- !string_app_assoc.
    apply contains_self_app.
  - intros body len ok Hin. apply (post_body o g k s c body len ok Hin).
Qed.

Lemma payload_confidence_is_cut_off_witness :
  confidence (build_alert all_ok boot ALERT_PEST_RISK None confidence_0_83f)
  = 83
  /\ (confidence_0_83f * 100 < 83)%Q.
Proof.
  split; [|reflexivity].
  assert (Hc : (0 <= confidence_0_83f <= 1)%Q)
    by (split; apply Qle_bool_iff; reflexivity).
  destruct (payload_confidence_is_cut_off all_ok boot ALERT_PEST_RISK None
              confidence_0_83f Hc) as (E & _).
  rewrite E. vm_compute. reflexivity.
Defined.

(** ** Features and alerts end to end *)


(** X20: an alert raised by the classifier reports a confidence of at
    least 70.  When the decision step of the firmware (threshold 70/100)
    raises an alert on a result whose confidence is at most 1, the alert
    that is encoded for it carries a percentage between 70 and 100. *)
Theorem ml_alert_reports_at_least_70_percent (o : outside) (g : globals)
    (sd : sensor_data_t) (r : ml_result_t) (a : alert_type_t) :
  alert_decision threshold r = Some a ->
  (ml_inference.confidence r <= 1)%Q ->
  70 <= confidence (build_alert o g a (Some sd) (ml_inference.confidence r))
     <= 100.
Proof.
  intros Hdec Hle. apply alert_decision_some in Hdec.
  destruct Hdec as [Hlt _].
  assert (Ht : (threshold == 70 # 100)%Q) by reflexivity.
  rewrite Ht in Hlt.
  assert (Hc : (0 <= ml_inference.confidence r <= 1)%Q) by (split; lra).
  destruct (confidence_percent_fits _ Hc) as (Hr & _ & Hfit).
  cbn [build_alert confidence]. rewrite Hfit. split; [|apply Hr].
  rewrite <- (Qtrunc_inject_Z 70). apply Qtrunc_le.
  apply round32_ge_int; [reflexivity|].
  change (inject_Z 70) with 70%Q. lra.
Qed.

Lemma ml_alert_reports_at_least_70_percent_witness :
  70 <= confidence
          (build_alert all_ok boot ALERT_PEST_RISK (Some end_to_end_sample)
                       (85 # 100)) <= 100.
Proof.
  apply (ml_alert_reports_at_least_70_percent all_ok boot end_to_end_sample
           (result_with CLASS_PEST_RISK (85 # 100)) ALERT_PEST_RISK).
  - reflexivity.
  - discriminate.
Defined.

(** ** The macros of utils.h *)

Section Macros.

Import utils.

Lemma BIT_value (n : Z) : 0 <= n < 32 -> BIT n = 2 ^ n.
Proof.
  intros Hn. unfold BIT, to_uint32.
  rewrite Z.shiftl_1_l. apply Z.mod_small.
  split; [apply Z.pow_nonneg; lia|].
  apply Z.pow_lt_mono_r; lia.
Qed.

Lemma BIT_testbit (n k : Z) :
  0 <= n < 32 -> Z.testbit (BIT n) k = (n =? k).
Proof.
  intros Hn. rewrite BIT_value by exact Hn.
  rewrite Z.pow2_bits_eqb by lia. reflexivity.
Qed.

Lemma uint32_testbit_high (reg k : Z) :
  0 <= reg < 2 ^ 32 -> 32 <= k -> Z.testbit reg k = false.
Proof.
  intros Hr Hk.
  rewrite <- (Z.mod_small reg (2 ^ 32)) by exact Hr.
  apply Z.mod_pow2_bits_high. lia.
Qed.

Lemma CLEAR_BIT_testbit (reg bit k : Z) :
  0 <= reg < 2 ^ 32 -> 0 <= k ->
  Z.testbit (CLEAR_BIT reg bit) k
  = Z.testbit reg k && negb (Z.testbit bit k).
Proof.
  intros Hr Hk. unfold CLEAR_BIT, to_uint32. rewrite Z.land_spec.
  destruct (Z.lt_ge_cases k 32) as [Hlt | Hge].
  - rewrite Z.mod_pow2_bits_low by lia.
    rewrite Z.lnot_spec by exact Hk. reflexivity.
  - rewrite (uint32_testbit_high reg k Hr Hge). reflexivity.
Qed.

Lemma uint32_of_bits (z : Z) :
  0 <= z -> (forall k, 32 <= k -> Z.testbit z k = false) -> 0 <= z < 2 ^ 32.
Proof.
  intros Hz Hbits. split; [exact Hz|].
  destruct (Z.eq_dec z 0) as [-> | Hnz]; [reflexivity|].
  apply Z.log2_lt_pow2; [lia|].
  destruct (Z.lt_ge_cases (Z.log2 z) 32) as [Hlt | Hge]; [exact Hlt|].
  pose proof (Z.bit_log2 z ltac:(lia)) as Hb.
  rewrite Hbits in Hb by exact Hge. discriminate.
Qed.

(** X21: setting, clearing and toggling a bit of a 32-bit register and
    testing it afterwards.  For a register value below 2^32 and a bit
    number n below 32: [CHECK_BIT] is nonzero after [SET_BIT] and zero
    after [CLEAR_BIT]; [TOGGLE_BIT] applied twice gives the register
    back; and every result is again below 2^32. *)
Theorem bit_macros_set_clear_toggle (reg n : Z) :
  0 <= reg < 2 ^ 32 ->
  0 <= n < 32 ->
  CHECK_BIT (SET_BIT reg (BIT n)) (BIT n) = BIT n
  /\ BIT n <> 0
  /\ CHECK_BIT (CLEAR_BIT reg (BIT n)) (BIT n) = 0
  /\ TOGGLE_BIT (TOGGLE_BIT reg (BIT n)) (BIT n) = reg
  /\ 0 <= SET_BIT reg (BIT n) < 2 ^ 32
  /\ 0 <= CLEAR_BIT reg (BIT n) < 2 ^ 32
  /\ 0 <= TOGGLE_BIT reg (BIT n) < 2 ^ 32.
Proof.
  intros Hr Hn.
  assert (Hb : 0 <= BIT n < 2 ^ 32).
  { rewrite BIT_value by exact Hn. split; [apply Z.pow_nonneg; lia|].
    apply Z.pow_lt_mono_r; lia. }
  split; [|split; [|split; [|split; [|split; [|split]]]]].
  - unfold CHECK_BIT, SET_BIT. apply Z.bits_inj'. intros k Hk.
    rewrite Z.land_spec, Z.lor_spec.
    destruct (Z.testbit (BIT n) k); destruct (Z.testbit reg k); reflexivity.
  - rewrite BIT_value by exact Hn. apply Z.pow_nonzero; lia.
  - unfold CHECK_BIT. apply Z.bits_inj'. intros k Hk.
    rewrite Z.land_spec, CLEAR_BIT_testbit, Z.bits_0 by assumption.
    destruct (Z.testbit reg k); destruct (Z.testbit (BIT n) k); reflexivity.
  - unfold TOGGLE_BIT. rewrite Z.lxor_assoc, Z.lxor_nilpotent.
    apply Z.lxor_0_r.
  - apply uint32_of_bits.
    + unfold SET_BIT. apply Z.lor_nonneg. lia.
    + intros k Hk. unfold SET_BIT. rewrite Z.lor_spec.
      rewrite (uint32_testbit_high reg k Hr Hk),
        (uint32_testbit_high (BIT n) k Hb Hk). reflexivity.
  - apply uint32_of_bits.
    + unfold CLEAR_BIT. apply Z.land_nonneg. left. lia.
    + intros k Hk. rewrite CLEAR_BIT_testbit by lia.
      rewrite (uint32_testbit_high reg k Hr Hk). reflexivity.
  - apply uint32_of_bits.
    + unfold TOGGLE_BIT. apply Z.lxor_nonneg. lia.
    + intros k Hk. unfold TOGGLE_BIT. rewrite Z.lxor_spec.
      rewrite (uint32_testbit_high reg k Hr Hk),
        (uint32_testbit_high (BIT n) k Hb Hk). reflexivity.
Qed.

Lemma bit_macros_set_clear_toggle_witness :
  CHECK_BIT (CLEAR_BIT 255 (BIT 3)) (BIT 3) = 0.
Proof.
  apply (bit_macros_set_clear_toggle 255 3); lia.
Defined.

(** X22: the bit macros touch one bit only.  For a register value below
    2^32 and two different bit numbers n and m below 32, [CHECK_BIT] of
    bit m gives the same value before and after [SET_BIT], [CLEAR_BIT]
    or [TOGGLE_BIT] of bit n. *)
Theorem bit_macros_leave_other_bits (reg n m : Z) :
  0 <= reg < 2 ^ 32 ->
  0 <= n < 32 ->
  0 <= m < 32 ->
  n <> m ->
  CHECK_BIT (SET_BIT reg (BIT n)) (BIT m) = CHECK_BIT reg (BIT m)
  /\ CHECK_BIT (CLEAR_BIT reg (BIT n)) (BIT m) = CHECK_BIT reg (BIT m)
  /\ CHECK_BIT (TOGGLE_BIT reg (BIT n)) (BIT m) = CHECK_BIT reg (BIT m).
Proof.
  intros Hr Hn Hm Hnm.
  split; [|split]; unfold CHECK_BIT; apply Z.bits_inj'; intros k Hk;
    rewrite !Z.land_spec, (BIT_testbit m k Hm);
    destruct (Z.eqb_spec m k) as [<- | Hmk];
    rewrite ?andb_false_r; try reflexivity; f_equal.
  - unfold SET_BIT. rewrite Z.lor_spec, (BIT_testbit n m Hn).
    destruct (Z.eqb_spec n m); [contradiction | apply orb_false_r].
  - rewrite CLEAR_BIT_testbit, (BIT_testbit n m Hn) by lia.
    destruct (Z.eqb_spec n m); [contradiction | apply andb_true_r].
  - unfold TOGGLE_BIT. rewrite Z.lxor_spec, (BIT_testbit n m Hn).
    destruct (Z.eqb_spec n m); [contradiction | apply xorb_false_r].
Qed.

Lemma bit_macros_leave_other_bits_witness :
  CHECK_BIT (SET_BIT 5 (BIT 1)) (BIT 2) = CHECK_BIT 5 (BIT 2).
Proof.
  apply (bit_macros_leave_other_bits 5 1 2); lia.
Defined.

(** X23: [CLAMP] with ordered bounds.  When min <= max the result lies
    between min and max, is x itself when x already does, equals
    MAX(min, MIN(x, max)), and clamping again changes nothing.  With the
    bounds the wrong way round (max < min) every x below min is still
    mapped to min, above max. *)
Theorem clamp_keeps_within_bounds (x lo hi : Z) :
  (lo <= hi ->
   lo <= CLAMP x lo hi <= hi
   /\ (lo <= x <= hi -> CLAMP x lo hi = x)
   /\ CLAMP x lo hi = MAX lo (MIN x hi)
   /\ CLAMP (CLAMP x lo hi) lo hi = CLAMP x lo hi)
  /\ (hi < lo -> x < lo -> CLAMP x lo hi = lo /\ hi < CLAMP x lo hi).
Proof.
  unfold CLAMP, MAX, MIN. split.
  - intros Hb.
    destruct (Z.ltb_spec x lo); destruct (Z.ltb_spec hi x);
      destruct (Z.ltb_spec x hi); try lia;
      repeat match goal with
             | |- context [?a <? ?b] => destruct (Z.ltb_spec a b); try lia
             end;
      repeat split; lia.
  - intros Hb Hx. destruct (Z.ltb_spec x lo); [|lia]. split; lia.
Qed.

Lemma clamp_keeps_within_bounds_witness :
  -128 <= CLAMP 300 (-128) 127 <= 127.
Proof.
  apply (proj1 (clamp_keeps_within_bounds 300 (-128) 127)). lia.
Defined.

End Macros.
